(** * a3t: context model, cache keys, override hierarchy and resolution

    A shallow embedding of the a3t asset loader (src/context.js, the
    resolver in src/src/logging.js, src/cache.js, src/db-backend.js,
    src/fs-backend.js, src/git-backend.js, src/secret-store.js and the
    main module).

    JavaScript values that the context and the resolver handle are the
    scalars [jsval]; a number [JNum n] is the double whose value is the
    integer [n] (NaN, infinities, fractions and -0 are not modelled), and
    the arithmetic below rounds its results to doubles; strings are
    sequences of 8-bit code units.  A plain JS object is an association list read through
    its first binding, so that the spread [{...a, ...b}] is [b ++ a]. *)

From Stdlib Require Import String Ascii ZArith List Bool Lia.
From Stdlib Require Import DecimalZ DecimalPos.
From stdpp Require Import base gmap strings.

Import ListNotations.
Local Open Scope list_scope.
Local Open Scope string_scope.
(* stdpp makes [String.append] [simpl never]; the proofs below compute
   with it. *)
Local Arguments String.append : simpl nomatch.

(* ------------------------------------------------------------------ *)
(** ** JavaScript values and objects *)

Inductive jsval :=
| JUndefined
| JNull
| JBool (b : bool)
| JNum (n : Z)
| JStr (s : string).

(** JS truthiness ([if (x)], [x || y], [a && b]). *)
Definition truthy (v : jsval) : bool :=
  match v with
  | JUndefined | JNull => false
  | JBool b => b
  | JNum n => negb (Z.eqb n 0)
  | JStr s => negb (String.eqb s EmptyString)
  end.

(** [v === null || v === undefined] *)
Definition nullish (v : jsval) : bool :=
  match v with JUndefined | JNull => true | _ => false end.

Definition is_undefined (v : jsval) : bool :=
  match v with JUndefined => true | _ => false end.

(** [a === b] *)
Definition jsval_eqb (a b : jsval) : bool :=
  match a, b with
  | JUndefined, JUndefined | JNull, JNull => true
  | JBool x, JBool y => Bool.eqb x y
  | JNum x, JNum y => Z.eqb x y
  | JStr x, JStr y => String.eqb x y
  | _, _ => false
  end.

Definition jsobj := list (string * jsval).

(** Property read [o.f]: a missing property reads as [undefined]. *)
Fixpoint get (o : jsobj) (f : string) : jsval :=
  match o with
  | [] => JUndefined
  | (g, v) :: o' => if String.eqb f g then v else get o' f
  end.

(** [{ ...a, ...b }] *)
Definition spread (a b : jsobj) : jsobj := app b a.

(* ------------------------------------------------------------------ *)
(** ** JSON.stringify on the values above *)

(** The double quote and the backslash. *)
Definition dq : ascii := "034".
Definition bs : ascii := "092".

Definition hexdigit (n : nat) : ascii :=
  if Nat.ltb n 10 then ascii_of_nat (48 + n) else ascii_of_nat (87 + n).

(** JSON.stringify's QuoteJSONString, one code unit. *)
Definition escape_char (c : ascii) : string :=
  let n := nat_of_ascii c in
  if Ascii.eqb c dq then String bs (String dq EmptyString)
  else if Ascii.eqb c bs then String bs (String bs EmptyString)
  else if Nat.eqb n 8 then String bs "b"
  else if Nat.eqb n 9 then String bs "t"
  else if Nat.eqb n 10 then String bs "n"
  else if Nat.eqb n 12 then String bs "f"
  else if Nat.eqb n 13 then String bs "r"
  else if Nat.ltb n 32 then
    String bs (String "u" (String "0" (String "0"
      (String (hexdigit (n / 16)) (String (hexdigit (n mod 16)) EmptyString)))))
  else String c EmptyString.

Fixpoint escape (s : string) : string :=
  match s with
  | EmptyString => EmptyString
  | String c s' => escape_char c ++ escape s'
  end.

Definition quote (s : string) : string :=
  String dq (escape s ++ String dq EmptyString).

Fixpoint print_uint (u : Decimal.uint) : string :=
  match u with
  | Decimal.Nil => EmptyString
  | Decimal.D0 u => String "0" (print_uint u)
  | Decimal.D1 u => String "1" (print_uint u)
  | Decimal.D2 u => String "2" (print_uint u)
  | Decimal.D3 u => String "3" (print_uint u)
  | Decimal.D4 u => String "4" (print_uint u)
  | Decimal.D5 u => String "5" (print_uint u)
  | Decimal.D6 u => String "6" (print_uint u)
  | Decimal.D7 u => String "7" (print_uint u)
  | Decimal.D8 u => String "8" (print_uint u)
  | Decimal.D9 u => String "9" (print_uint u)
  end.

(** Number::toString on an integer below 1e21 in magnitude. *)
Definition print_Z (n : Z) : string :=
  match Z.to_int n with
  | Decimal.Pos u => print_uint u
  | Decimal.Neg u => String "-" (print_uint u)
  end.

(** SerializeJSONProperty on a scalar; [None] for [undefined], which
    JSON.stringify leaves out of an object.  A number of magnitude 1e21
    or more, which JSON.stringify writes in exponent form ("1e+21"), is
    written here in full: both printings are injective, so the keys built
    from them are equal exactly when the numbers are. *)
Definition json_value (v : jsval) : option string :=
  match v with
  | JUndefined => None
  | JNull => Some "null"
  | JBool true => Some "true"
  | JBool false => Some "false"
  | JNum n => Some (print_Z n)
  | JStr s => Some (quote s)
  end.

Fixpoint json_members (first : bool) (l : jsobj) : string :=
  match l with
  | [] => EmptyString
  | (k, v) :: l' =>
      match json_value v with
      | None => json_members first l'
      | Some s =>
          (if first then EmptyString else ",") ++ quote k ++ ":" ++ s
          ++ json_members false l'
      end
  end.

(** JSON.stringify on an object literal (keys in insertion order). *)
Definition json_object (l : jsobj) : string :=
  "{" ++ json_members true l ++ "}".

(* ------------------------------------------------------------------ *)
(** ** src/context.js *)

Definition cache_key_object (key : string) (context : jsobj) : jsobj :=
  [("key", JStr key);
   ("language", get context "language");
   ("workspace", get context "workspace");
   ("system", get context "system");
   ("buildHash", get context "buildHash");
   ("nonce", get context "nonce")].

(** [getCacheKey(key, contextOverride)] with the global context passed in. *)
Definition getCacheKey (globalContext : jsobj) (key : string)
    (contextOverride : jsobj) : string :=
  let context := spread globalContext contextOverride in
  json_object (cache_key_object key context).

(** [getDbQueryHierarchy(key, contextOverride)]: each query object is
    the list of its own properties in insertion order. *)
Definition getDbQueryHierarchy (globalContext : jsobj) (key : string)
    (contextOverride : jsobj) : list jsobj :=
  let context := spread globalContext contextOverride in
  let language := get context "language" in
  let workspace := get context "workspace" in
  let system := get context "system" in
  ((if truthy workspace && truthy language
    then [[("workspace", workspace); ("language", language); ("key", JStr key)]]
    else [])
   ++ (if truthy workspace then [[("workspace", workspace); ("key", JStr key)]] else [])
   ++ (if truthy language then [[("language", language); ("key", JStr key)]] else [])
   ++ (if truthy system then [[("system", system); ("key", JStr key)]] else [])
   ++ [[("key", JStr key)]])%list.


(* ------------------------------------------------------------------ *)
(** ** Reading JSON back

    A reader for the JSON text produced above.  It is not part of a3t;
    it serves to show that the cache key determines the context fields
    it serialises. *)

Definition hexval (c : ascii) : option nat :=
  let n := nat_of_ascii c in
  if (48 <=? n)%nat && (n <=? 57)%nat then Some (n - 48)
  else if (97 <=? n)%nat && (n <=? 102)%nat then Some (n - 87)
  else None.

Definition cons_res (c : ascii) (r : option (string * string))
    : option (string * string) :=
  match r with Some (s, rest) => Some (String c s, rest) | None => None end.

(** Reads the body of a JSON string up to its closing quote. *)
Fixpoint parse_str (s : string) : option (string * string) :=
  match s with
  | EmptyString => None
  | String c r =>
      if Ascii.eqb c dq then Some (EmptyString, r)
      else if Ascii.eqb c bs then
        match r with
        | EmptyString => None
        | String e r1 =>
            if Ascii.eqb e dq then cons_res dq (parse_str r1)
            else if Ascii.eqb e bs then cons_res bs (parse_str r1)
            else if Ascii.eqb e "b" then cons_res (ascii_of_nat 8) (parse_str r1)
            else if Ascii.eqb e "t" then cons_res (ascii_of_nat 9) (parse_str r1)
            else if Ascii.eqb e "n" then cons_res (ascii_of_nat 10) (parse_str r1)
            else if Ascii.eqb e "f" then cons_res (ascii_of_nat 12) (parse_str r1)
            else if Ascii.eqb e "r" then cons_res (ascii_of_nat 13) (parse_str r1)
            else if Ascii.eqb e "u" then
              match r1 with
              | String h1 (String h2 (String h3 (String h4 r2))) =>
                  match hexval h1, hexval h2, hexval h3, hexval h4 with
                  | Some a, Some b, Some c', Some d =>
                      cons_res (ascii_of_nat (a * 4096 + b * 256 + c' * 16 + d))
                               (parse_str r2)
                  | _, _, _, _ => None
                  end
              | _ => None
              end
            else None
        end
      else cons_res c (parse_str r)
  end.

Definition digit_of (c : ascii) : option (Decimal.uint -> Decimal.uint) :=
  if Ascii.eqb c "0" then Some Decimal.D0
  else if Ascii.eqb c "1" then Some Decimal.D1
  else if Ascii.eqb c "2" then Some Decimal.D2
  else if Ascii.eqb c "3" then Some Decimal.D3
  else if Ascii.eqb c "4" then Some Decimal.D4
  else if Ascii.eqb c "5" then Some Decimal.D5
  else if Ascii.eqb c "6" then Some Decimal.D6
  else if Ascii.eqb c "7" then Some Decimal.D7
  else if Ascii.eqb c "8" then Some Decimal.D8
  else if Ascii.eqb c "9" then Some Decimal.D9
  else None.

Fixpoint parse_digits (s : string) : Decimal.uint * string :=
  match s with
  | EmptyString => (Decimal.Nil, EmptyString)
  | String c r =>
      match digit_of c with
      | Some d => let (u, r') := parse_digits r in (d u, r')
      | None => (Decimal.Nil, s)
      end
  end.

Definition parse_value (s : string) : option (jsval * string) :=
  match s with
  | EmptyString => None
  | String c r =>
      if Ascii.eqb c "n" then
        match r with
        | String "u" (String "l" (String "l" r')) => Some (JNull, r')
        | _ => None
        end
      else if Ascii.eqb c "t" then
        match r with
        | String "r" (String "u" (String "e" r')) => Some (JBool true, r')
        | _ => None
        end
      else if Ascii.eqb c "f" then
        match r with
        | String "a" (String "l" (String "s" (String "e" r'))) => Some (JBool false, r')
        | _ => None
        end
      else if Ascii.eqb c dq then
        match parse_str r with
        | Some (x, r') => Some (JStr x, r')
        | None => None
        end
      else if Ascii.eqb c "-" then
        let (u, r') := parse_digits r in Some (JNum (Z.of_int (Decimal.Neg u)), r')
      else
        match digit_of c with
        | Some _ => let (u, r') := parse_digits s in Some (JNum (Z.of_int (Decimal.Pos u)), r')
        | None => None
        end
  end.

Definition parse_member (s : string) : option ((string * jsval) * string) :=
  match s with
  | String c r =>
      if Ascii.eqb c dq then
        match parse_str r with
        | Some (k, String ":" r') =>
            match parse_value r' with
            | Some (v, r'') => Some ((k, v), r'')
            | None => None
            end
        | _ => None
        end
      else None
  | EmptyString => None
  end.

(** Members after the first one, up to the closing brace. *)
Fixpoint parse_more (fuel : nat) (s : string) : option (jsobj * string) :=
  match s with
  | String "}" r => Some ([], r)
  | String "," r =>
      match fuel with
      | O => None
      | S f =>
          match parse_member r with
          | Some (m, r') =>
              match parse_more f r' with
              | Some (ms, r'') => Some (m :: ms, r'')
              | None => None
              end
          | None => None
          end
      end
  | _ => None
  end.

Definition parse_object (fuel : nat) (s : string) : option (jsobj * string) :=
  match s with
  | String "{" (String "}" r) => Some ([], r)
  | String "{" r =>
      match parse_member r with
      | Some (m, r') =>
          match parse_more fuel r' with
          | Some (ms, r'') => Some (m :: ms, r'')
          | None => None
          end
      | None => None
      end
  | _ => None
  end.

(** The members JSON.stringify writes: those not [undefined]. *)
Definition defined_members (l : jsobj) : jsobj :=
  List.filter (fun kv => negb (is_undefined (snd kv))) l.



(* ------------------------------------------------------------------ *)
(** ** Exceptions and effectful results *)

(** A thrown JS value: [null] or [undefined] (e.g. [Promise.reject()]),
    or any other value, read through its own properties. *)
Inductive exn :=
| ExnNullish
| ExnValue (props : jsobj).

Inductive outcome (A : Type) :=
| Ret (a : A)
| Throw (e : exn).
Arguments Ret {A} a.
Arguments Throw {A} e.

(** [new Error(msg)] *)
Definition Error (msg : string) : exn := ExnValue [("message", JStr msg)].

(** The TypeError raised by reading a property of [null]/[undefined]. *)
Definition TypeError : exn := Error "Cannot read properties of undefined".

(** [error.f] on a caught value. *)
Definition read_prop (e : exn) (f : string) : outcome jsval :=
  match e with
  | ExnNullish => Throw TypeError
  | ExnValue props => Ret (get props f)
  end.

(* ------------------------------------------------------------------ *)
(** ** src/cache.js and the process state *)

Record cache_entry := { found : bool; value : jsval }.

(** The module-level state: the global context of context.js, the
    [Map] of cache.js, and the state [world] of the outside world the
    backends talk to (database, files, repositories). *)
Record a3t_state (W : Type) := {
  globalContext : jsobj;
  cache : gmap string cache_entry;
  world : W
}.
Arguments globalContext {W} _.
Arguments cache {W} _.
Arguments world {W} _.

Definition getCached {W} (s : a3t_state W) (cacheKey : string) : option cache_entry :=
  cache s !! cacheKey.

Definition setCached {W} (s : a3t_state W) (cacheKey : string) (f : bool) (v : jsval)
    : a3t_state W :=
  {| globalContext := globalContext s;
     cache := <[cacheKey := {| found := f; value := v |}]> (cache s);
     world := world s |}.



Definition set_world {W} (s : a3t_state W) (w : W) : a3t_state W :=
  {| globalContext := globalContext s; cache := cache s; world := w |}.

(* ------------------------------------------------------------------ *)
(** ** Backends, src/db-backend.js and src/fs-backend.js *)

(** [dbBackend.findAsset(query)]; [await] makes a synchronous throw and a
    rejected promise the same. *)
Definition db_backend (W : Type) := jsobj -> W -> outcome jsval * W.

(** A content backend: [readAsset(key)] and [readBinaryAsset(key)]. *)
Record fs_backend (W : Type) := {
  readAsset : string -> W -> outcome jsval * W;
  readBinaryAsset : string -> W -> outcome jsval * W
}.
Arguments readAsset {W} _ _ _.
Arguments readBinaryAsset {W} _ _ _.

Section Resolver.
Context {W : Type}.

(** The [for (const query of queries)] loop of [queryDatabase]. *)
Fixpoint query_loop (find : db_backend W) (queries : list jsobj) (w : W)
    : outcome jsval * W :=
  match queries with
  | [] => (Ret JNull, w)
  | query :: rest =>
      let (r, w1) := find query w in
      match r with
      | Ret result =>
          if negb (nullish result) then (Ret result, w1)
          else query_loop find rest w1
      | Throw error =>
          (* console.warn('a3t: Database query error:', error.message); continue; *)
          match read_prop error "message" with
          | Ret _ => query_loop find rest w1
          | Throw e => (Throw e, w1)
          end
      end
  end.

(** [queryDatabase(queries)]; [None] is [dbBackend === null]. *)
Definition queryDatabase (dbBackend : option (db_backend W)) (queries : list jsobj)
    (w : W) : outcome jsval * W :=
  match dbBackend with
  | None => (Ret JNull, w)
  | Some find => query_loop find queries w
  end.

(** [readFromFilesystem(key, binary)] with [fsBackend] the backend in
    force (the one [autoDetectFsBackend] installs when none is set). *)
Definition readFromFilesystem (fsBackend : fs_backend W) (key : string) (binary : bool)
    (w : W) : outcome jsval * W :=
  let (r, w1) := (if binary then readBinaryAsset fsBackend key w
                  else readAsset fsBackend key w) in
  match r with
  | Ret v => (Ret v, w1)
  | Throw error =>
      (* console.warn('a3t: Filesystem backend error:', error.message) *)
      match read_prop error "message" with
      | Ret _ => (Ret JNull, w1)
      | Throw e => (Throw e, w1)
      end
  end.

(* ------------------------------------------------------------------ *)
(** ** The resolver ([resolveAsset]) *)

(** The [try] block of [resolveAsset]: the pair [(found, value)] it
    passes to [setCached] before returning [value]. *)
Definition resolve_try (dbBackend : option (db_backend W)) (fsBackend : fs_backend W)
    (globalCtx : jsobj) (key : string) (defaultValue : jsval) (contextOverride : jsobj)
    (binary : bool) (w : W) : outcome (bool * jsval) * W :=
  let dbQueries := getDbQueryHierarchy globalCtx key contextOverride in
  let (r1, w1) := queryDatabase dbBackend dbQueries w in
  match r1 with
  | Throw e => (Throw e, w1)
  | Ret dbResult =>
      if negb (nullish dbResult) then (Ret (true, dbResult), w1)
      else
        let (r2, w2) := readFromFilesystem fsBackend key binary w1 in
        match r2 with
        | Throw e => (Throw e, w2)
        | Ret fsResult =>
            if negb (nullish fsResult) then (Ret (true, fsResult), w2)
            else if negb (is_undefined defaultValue) then (Ret (true, defaultValue), w2)
            else (Ret (false, JUndefined), w2)
        end
  end.

Definition resolveAsset (dbBackend : option (db_backend W)) (fsBackend : fs_backend W)
    (key : string) (defaultValue : jsval) (contextOverride : jsobj) (binary : bool)
    (s : a3t_state W) : outcome jsval * a3t_state W :=
  let cacheKey := getCacheKey (globalContext s) key contextOverride in
  match getCached s cacheKey with
  | Some cached => (Ret (if found cached then value cached else defaultValue), s)
  | None =>
      let (r, w1) := resolve_try dbBackend fsBackend (globalContext s) key defaultValue
                       contextOverride binary (world s) in
      let s1 := set_world s w1 in
      match r with
      | Ret (f, v) => (Ret v, setCached s1 cacheKey f v)
      | Throw error =>
          (* console.warn('a3t: Asset resolution error:', error.message) *)
          match read_prop error "message" with
          | Throw e => (Throw e, s1)
          | Ret _ =>
              if negb (is_undefined defaultValue)
              then (Ret defaultValue, setCached s1 cacheKey true defaultValue)
              else (Ret JUndefined, setCached s1 cacheKey false JUndefined)
          end
      end
  end.

(* ------------------------------------------------------------------ *)
(** ** The main module: [setA3tContext], [incrementNonce] *)








End Resolver.

(* ------------------------------------------------------------------ *)
(** ** Node's [path] module (POSIX) *)

(** [String.prototype.startsWith]. *)
Definition startsWith (str search : string) : bool := String.prefix search str.

(** The path split at every ["/"]. *)
Fixpoint split_slash (s : string) : list string :=
  match s with
  | EmptyString => [EmptyString]
  | String c r =>
      if Ascii.eqb c "/" then EmptyString :: split_slash r
      else match split_slash r with
           | [] => [String c EmptyString]
           | x :: l => String c x :: l
           end
  end.

(** [normalizeString]: the segments kept so far, most recent first.
    Empty and ["."] segments are dropped; [".."] removes the last kept
    segment, and is kept itself only above the root of a relative path. *)
Fixpoint normalize_segs (allowAboveRoot : bool) (stack : list string) (segs : list string)
    : list string :=
  match segs with
  | [] => stack
  | x :: l =>
      if String.eqb x EmptyString || String.eqb x "." then
        normalize_segs allowAboveRoot stack l
      else if String.eqb x ".." then
        match stack with
        | y :: st =>
            if negb (String.eqb y "..") then normalize_segs allowAboveRoot st l
            else if allowAboveRoot then normalize_segs allowAboveRoot (".." :: stack) l
            else normalize_segs allowAboveRoot stack l
        | [] =>
            if allowAboveRoot then normalize_segs allowAboveRoot [".."] l
            else normalize_segs allowAboveRoot [] l
        end
      else normalize_segs allowAboveRoot (x :: stack) l
  end.

(** ["/" + x] for each segment x. *)
Fixpoint seg_tail (l : list string) : string :=
  match l with
  | [] => EmptyString
  | x :: r => String "/" (x ++ seg_tail r)
  end.

(** The segments joined with ["/"]. *)
Definition join_segs (l : list string) : string :=
  match l with
  | [] => EmptyString
  | x :: r => x ++ seg_tail r
  end.

Definition is_abs (p : string) : bool :=
  match p with
  | String c _ => Ascii.eqb c "/"
  | EmptyString => false
  end.

Fixpoint ends_with_slash (p : string) : bool :=
  match p with
  | EmptyString => false
  | String c EmptyString => Ascii.eqb c "/"
  | String _ r => ends_with_slash r
  end.

(** [path.normalize(p)]. *)
Definition path_normalize (p : string) : string :=
  if String.eqb p EmptyString then "." else
  let isAbsolute := is_abs p in
  let trailingSeparator := ends_with_slash p in
  let q := join_segs (rev (normalize_segs (negb isAbsolute) [] (split_slash p))) in
  if String.eqb q EmptyString then
    (if isAbsolute then "/" else if trailingSeparator then "./" else ".")
  else
    let q := if trailingSeparator then q ++ "/" else q in
    if isAbsolute then "/" ++ q else q.

(** [path.join(...args)] on string arguments: the non-empty ones joined
    with ["/"], then normalized. *)
Definition path_join (args : list string) : string :=
  let joined := join_segs (List.filter (fun a => negb (String.eqb a EmptyString)) args) in
  if String.eqb joined EmptyString then "." else path_normalize joined.

(** [path.join] validates its arguments: a non-string raises a TypeError. *)
Fixpoint path_args (args : list jsval) : option (list string) :=
  match args with
  | [] => Some []
  | JStr a :: rest => option_map (cons a) (path_args rest)
  | _ :: _ => None
  end.

Definition path_join_js (args : list jsval) : outcome string :=
  match path_args args with
  | Some ss => Ret (path_join ss)
  | None => Throw (Error "The path argument must be of type string")
  end.

(** The segments of [path.resolve(p)], with [cwd] the absolute
    [process.cwd()]. *)
Definition resolve_segs (cwd p : string) : list string :=
  let resolvedPath :=
    if String.eqb p EmptyString then cwd
    else if is_abs p then p else cwd ++ "/" ++ p in
  rev (normalize_segs false [] (split_slash resolvedPath)).

(** [path.resolve(p)]. *)
Definition path_resolve (cwd p : string) : string := "/" ++ join_segs (resolve_segs cwd p).

(** [path.sep] *)
Definition sep : string := "/".

(** The guard of every read: [!resolvedPath.startsWith(resolvedRoot +
    path.sep) && resolvedPath !== resolvedRoot]. *)
Definition traversal_rejected (resolvedPath resolvedRoot : string) : bool :=
  negb (startsWith resolvedPath (resolvedRoot ++ sep)) &&
  negb (String.eqb resolvedPath resolvedRoot).

(* ------------------------------------------------------------------ *)
(** ** The content backends: [NodeFsBackend] and [GitFsBackend] *)

(** The [catch] of every read: [if (error.code === 'ENOENT') return null;
    ... return null;]. [logBackend] only reads [error.message] of the
    (non-null) error and writes to the logger. *)
Definition read_catch (error : exn) : outcome jsval :=
  match read_prop error "code" with
  | Throw e => Throw e
  | Ret _ => Ret JNull
  end.

(** [`${v}`] *)
Definition template_string (v : jsval) : string :=
  match v with
  | JUndefined => "undefined"
  | JNull => "null"
  | JBool true => "true"
  | JBool false => "false"
  | JNum n => print_Z n
  | JStr t => t
  end.

(** ['a'..'z', 'A'..'Z', '0'..'9'] *)
Definition is_alnum (c : ascii) : bool :=
  let n := nat_of_ascii c in
  (Nat.leb 48 n && Nat.leb n 57) || (Nat.leb 65 n && Nat.leb n 90) ||
  (Nat.leb 97 n && Nat.leb n 122).

(** The characters of [[a-zA-Z0-9-_]]. *)
Definition repo_char (c : ascii) : bool :=
  is_alnum c || Ascii.eqb c "-" || Ascii.eqb c "_".

(** [.replace(/[^a-zA-Z0-9-_]/g, '-')] *)
Fixpoint replace_disallowed (s : string) : string :=
  match s with
  | EmptyString => EmptyString
  | String c r => String (if repo_char c then c else "-") (replace_disallowed r)
  end.

(** [.replace(/-+/g, '-')]; [in_run] is set inside a run of dashes. *)
Fixpoint collapse_dashes (in_run : bool) (s : string) : string :=
  match s with
  | EmptyString => EmptyString
  | String c r =>
      if Ascii.eqb c "-" then
        if in_run then collapse_dashes true r else String "-" (collapse_dashes true r)
      else String c (collapse_dashes false r)
  end.

Fixpoint drop_trailing_dash (s : string) : string :=
  match s with
  | EmptyString => EmptyString
  | String c EmptyString => if Ascii.eqb c "-" then EmptyString else String c EmptyString
  | String c r => String c (drop_trailing_dash r)
  end.

(** [.replace(/^-|-$/g, '')]: one dash at the start and one at the end. *)
Definition trim_dashes (s : string) : string :=
  let s1 := match s with
            | String c r => if Ascii.eqb c "-" then r else s
            | EmptyString => s
            end in
  drop_trailing_dash s1.

(** The [repoName] of [getLocalRepoPath]. *)
Definition sanitize_repo_name (repoUrl : string) : string :=
  trim_dashes (collapse_dashes false (replace_disallowed repoUrl)).

(** A value that is either a plain object or a scalar. *)
Inductive jsobjval :=
| JObj (o : jsobj)
| JPrim (v : jsval).

(** The fields of [this.config] that the code below reads.  The
    constructor sets them to [config.cachePath || '.a3t-git-cache'],
    [config.scope || 'workspace'] and [config.credentials || {}], and
    then its trailing [...config] puts back every property the caller
    passed, [undefined] and [null] included: each field holds whatever
    value the caller gave it. *)
Record git_config := {
  repoUrl : string;
  cachePath : jsval;
  scope : jsval;
  credentials : jsobjval
}.

(** [getLocalRepoPath()], with [context = getA3tContext()]. *)
Definition getLocalRepoPath (config : git_config) (context : jsobj) : outcome string :=
  let scopeId :=
    if jsval_eqb (scope config) (JStr "user")
    then (let u := get context "user" in if truthy u then u else JStr "default-user")
    else (let ws := get context "workspace" in if truthy ws then ws else JStr "default-workspace") in
  let repoName := sanitize_repo_name (repoUrl config) in
  path_join_js [cachePath config; scope config; scopeId; JStr repoName].

(** [.replace(/[^a-zA-Z0-9]/g, '_')] *)
Fixpoint repo_key (s : string) : string :=
  match s with
  | EmptyString => EmptyString
  | String c r => String (if is_alnum c then c else "_") (repo_key r)
  end.

(** [obj.k = v] *)
Fixpoint js_set (o : jsobj) (k : string) (v : jsval) : jsobj :=
  match o with
  | [] => [(k, v)]
  | (k', v') :: rest => if String.eqb k' k then (k, v) :: rest else (k', v') :: js_set rest k v
  end.

(** [this.config.credentials.f] for [f] one of [username], [password]
    and [token], which no primitive value has: [undefined] on a
    primitive, and a TypeError on [undefined] and [null]. *)
Definition read_field (c : jsobjval) (f : string) : outcome jsval :=
  match c with
  | JObj o => Ret (get o f)
  | JPrim v => if nullish v then Throw TypeError else Ret JUndefined
  end.

(** [getAuthOptions()], with [getSecret] the secret store's lookup (it
    answers [null] when the key is absent or its provider fails).  The
    test [if (creds.f)] and the copy [auth.f = creds.f] read the same
    property twice, with the same result. *)
Definition getAuthOptions (config : git_config) (getSecret : string -> jsval) : outcome jsobj :=
  let creds := credentials config in
  let auth := [] in
  match read_field creds "username" with
  | Throw e => Throw e
  | Ret username =>
  let auth := if truthy username then js_set auth "username" username else auth in
  match read_field creds "password" with
  | Throw e => Throw e
  | Ret password =>
  let auth := if truthy password then js_set auth "password" password else auth in
  match read_field creds "token" with
  | Throw e => Throw e
  | Ret token =>
  let auth := if truthy token then js_set auth "token" token else auth in
  let repoKey := repo_key (repoUrl config) in
  let secretUsername := getSecret ("git_username_" ++ repoKey) in
  let auth := if truthy secretUsername then js_set auth "username" secretUsername else auth in
  let secretPassword := getSecret ("git_password_" ++ repoKey) in
  let auth := if truthy secretPassword then js_set auth "password" secretPassword else auth in
  let secretToken := getSecret ("git_token_" ++ repoKey) in
  let auth := if truthy secretToken then js_set auth "token" secretToken else auth in
  Ret auth
  end end end.



Section Backends.
Context {W : Type}.

(** [NodeFsBackend] over [fs.readFile(fullPath, 'utf8')] and
    [fs.readFile(fullPath)], run in the directory [cwd]. *)
Definition NodeFsBackend_readAsset (cwd rootPath : string)
    (readFile : string -> W -> outcome jsval * W) (key : string) (w : W) : outcome jsval * W :=
  let fullPath := path_join [rootPath; key] in
  let resolvedPath := path_resolve cwd fullPath in
  let resolvedRoot := path_resolve cwd rootPath in
  if traversal_rejected resolvedPath resolvedRoot
  then (read_catch (Error "Path traversal not allowed"), w)
  else let (r, w1) := readFile fullPath w in
       match r with
       | Ret content => (Ret content, w1)
       | Throw error => (read_catch error, w1)
       end.

Definition NodeFsBackend_readBinaryAsset (cwd rootPath : string)
    (readFileBinary : string -> W -> outcome jsval * W) (key : string) (w : W)
    : outcome jsval * W :=
  let fullPath := path_join [rootPath; key] in
  let resolvedPath := path_resolve cwd fullPath in
  let resolvedRoot := path_resolve cwd rootPath in
  if traversal_rejected resolvedPath resolvedRoot
  then (read_catch (Error "Path traversal not allowed"), w)
  else let (r, w1) := readFileBinary fullPath w in
       match r with
       | Ret buffer => (Ret buffer, w1)
       | Throw error => (read_catch error, w1)
       end.

(** The outside world as [ensureRepository] sees it: [repo_fresh] is the
    test [autoFetch && now - lastFetchTime < fetchInterval &&
    isRepoValid(repoPath)] (whose own [catch] answers false), and
    [repo_sync] every awaited step of its [try] block (mkdir,
    getAuthOptions, clone or fetch, checkout, lastFetch update). *)
Record git_world := {
  repo_fresh : string -> W -> bool * W;
  repo_sync : string -> W -> outcome jsval * W;
  git_readFile : string -> W -> outcome jsval * W;
  git_readFileBinary : string -> W -> outcome jsval * W
}.

(** [ensureRepository()] *)
Definition ensureRepository (gw : git_world) (config : git_config) (context : jsobj) (w : W)
    : outcome string * W :=
  match getLocalRepoPath config context with
  | Throw e => (Throw e, w)
  | Ret repoPath =>
      let (fresh, w1) := repo_fresh gw repoPath w in
      if fresh then (Ret repoPath, w1) else
      let (r, w2) := repo_sync gw repoPath w1 in
      match r with
      | Ret _ => (Ret repoPath, w2)
      | Throw error =>
          match read_prop error "message" with
          | Throw e => (Throw e, w2)
          | Ret m => (Throw (Error ("Failed to ensure Git repository: " ++ template_string m)), w2)
          end
      end
  end.

Definition GitFsBackend_readAsset (gw : git_world) (cwd : string) (config : git_config)
    (context : jsobj) (key : string) (w : W) : outcome jsval * W :=
  let (r0, w0) := ensureRepository gw config context w in
  match r0 with
  | Throw error => (read_catch error, w0)
  | Ret repoPath =>
      let assetPath := path_join [repoPath; key] in
      let resolvedPath := path_resolve cwd assetPath in
      let resolvedRepo := path_resolve cwd repoPath in
      if traversal_rejected resolvedPath resolvedRepo
      then (read_catch (Error "Path traversal not allowed"), w0)
      else let (r, w1) := git_readFile gw assetPath w0 in
           match r with
           | Ret content => (Ret content, w1)
           | Throw error => (read_catch error, w1)
           end
  end.

Definition GitFsBackend_readBinaryAsset (gw : git_world) (cwd : string) (config : git_config)
    (context : jsobj) (key : string) (w : W) : outcome jsval * W :=
  let (r0, w0) := ensureRepository gw config context w in
  match r0 with
  | Throw error => (read_catch error, w0)
  | Ret repoPath =>
      let assetPath := path_join [repoPath; key] in
      let resolvedPath := path_resolve cwd assetPath in
      let resolvedRepo := path_resolve cwd repoPath in
      if traversal_rejected resolvedPath resolvedRepo
      then (read_catch (Error "Path traversal not allowed"), w0)
      else let (r, w1) := git_readFileBinary gw assetPath w0 in
           match r with
           | Ret buffer => (Ret buffer, w1)
           | Throw error => (read_catch error, w1)
           end
  end.

End Backends.

(** [new NodeFsBackend(rootPath)] as the content backend in force. *)
Definition NodeFsBackend {W} (cwd rootPath : string)
    (readFile readFileBinary : string -> W -> outcome jsval * W) : fs_backend W :=
  {| readAsset := NodeFsBackend_readAsset cwd rootPath readFile;
     readBinaryAsset := NodeFsBackend_readBinaryAsset cwd rootPath readFileBinary |}.

(** [new GitFsBackend(config)] as the content backend in force, with
    [context] the global context at the time of the read. *)
Definition GitFsBackend {W} (gw : git_world (W := W)) (cwd : string) (config : git_config)
    (context : jsobj) : fs_backend W :=
  {| readAsset := GitFsBackend_readAsset gw cwd config context;
     readBinaryAsset := GitFsBackend_readBinaryAsset gw cwd config context |}.

(* ------------------------------------------------------------------ *)
(** ** [MongoDbBackend] (src/db-backend.js) *)

Section Mongo.
Context {W : Type}.

(** [MongoDbBackend.findAsset(query)], with [findOne] the awaited chain
    [this.client.db(databaseName).collection(collectionName).findOne(query)]
    (a matching document, or [None] for [null]); a document is an object,
    hence truthy. *)
Definition MongoDbBackend_findAsset (findOne : jsobj -> W -> outcome (option jsobj) * W)
    : db_backend W :=
  fun query w =>
    let (r, w1) := findOne query w in
    match r with
    | Ret (Some result) => (Ret (get result "value"), w1)
    | Ret None => (Ret JNull, w1)
    | Throw error =>
        (* console.warn('a3t: Database query failed:', error.message); return null; *)
        match read_prop error "message" with
        | Ret _ => (Ret JNull, w1)
        | Throw e => (Throw e, w1)
        end
    end.

End Mongo.

(* ------------------------------------------------------------------ *)
(** ** The main module: [get], [getBinary] *)

Section MainModule.
Context {W : Type}.

(** [get(key, defaultValue, contextOverride)] ([__] is the same call). *)
Definition a3t_get (dbBackend : option (db_backend W)) (fsBackend : fs_backend W)
    (key : string) (defaultValue : jsval) (contextOverride : jsobj) (s : a3t_state W)
    : outcome jsval * a3t_state W :=
  resolveAsset dbBackend fsBackend key defaultValue contextOverride false s.

Definition getBinary (dbBackend : option (db_backend W)) (fsBackend : fs_backend W)
    (key : string) (defaultValue : jsval) (contextOverride : jsobj) (s : a3t_state W)
    : outcome jsval * a3t_state W :=
  resolveAsset dbBackend fsBackend key defaultValue contextOverride true s.

End MainModule.

(* ------------------------------------------------------------------ *)
(** ** src/secret-store.js *)

(** A secret provider: [isAvailable()], [getSecret(key)], [setSecret(key,
    value)], each awaited. *)
Record secret_provider (W : Type) := {
  provider_isAvailable : W -> outcome bool * W;
  provider_getSecret : string -> W -> outcome jsval * W;
  provider_setSecret : string -> jsval -> W -> outcome unit * W
}.
Arguments provider_isAvailable {W} _ _.
Arguments provider_getSecret {W} _ _ _.
Arguments provider_setSecret {W} _ _ _ _.

Section Composite.
Context {W : Type}.

(** [CompositeProvider.getSecret(key)]. The [catch] logs
    [error.message] through [getLogger()], which never answers [null]. *)
Fixpoint CompositeProvider_getSecret (providers : list (secret_provider W)) (key : string)
    (w : W) : outcome jsval * W :=
  match providers with
  | [] => (Ret JNull, w)
  | provider :: rest =>
      let catch (error : exn) (w1 : W) :=
        match read_prop error "message" with
        | Ret _ => CompositeProvider_getSecret rest key w1
        | Throw e => (Throw e, w1)
        end in
      let (r, w1) := provider_isAvailable provider w in
      match r with
      | Throw error => catch error w1
      | Ret false => CompositeProvider_getSecret rest key w1
      | Ret true =>
          let (r2, w2) := provider_getSecret provider key w1 in
          match r2 with
          | Throw error => catch error w2
          | Ret value =>
              if negb (jsval_eqb value JNull) then (Ret value, w2)
              else CompositeProvider_getSecret rest key w2
          end
      end
  end.

(** [CompositeProvider.setSecret(key, value)] *)
Fixpoint CompositeProvider_setSecret (providers : list (secret_provider W)) (key : string)
    (value : jsval) (w : W) : outcome unit * W :=
  match providers with
  | [] => (Throw (Error "No provider supports setting secrets"), w)
  | provider :: rest =>
      let (r, w1) := provider_isAvailable provider w in
      match r with
      | Ret true =>
          let (r2, w2) := provider_setSecret provider key value w1 in
          match r2 with
          | Ret _ => (Ret tt, w2)
          | Throw _ => CompositeProvider_setSecret rest key value w2
          end
      | Ret false => CompositeProvider_setSecret rest key value w1
      | Throw _ => CompositeProvider_setSecret rest key value w1
      end
  end.

(** [CompositeProvider.isAvailable()] *)
Fixpoint CompositeProvider_isAvailable (providers : list (secret_provider W)) (w : W)
    : outcome bool * W :=
  match providers with
  | [] => (Ret false, w)
  | provider :: rest =>
      let (r, w1) := provider_isAvailable provider w in
      match r with
      | Ret true => (Ret true, w1)
      | Ret false => CompositeProvider_isAvailable rest w1
      | Throw e => (Throw e, w1)
      end
  end.

Definition CompositeProvider (providers : list (secret_provider W)) : secret_provider W :=
  {| provider_isAvailable := CompositeProvider_isAvailable providers;
     provider_getSecret := CompositeProvider_getSecret providers;
     provider_setSecret := CompositeProvider_setSecret providers |}.

(** The module's [getSecret(key)], with [defaultProvider] the provider in
    force (module load installs one, and [setDefaultProvider] never
    installs [null]). *)
Definition getSecret (defaultProvider : secret_provider W) (key : string) (w : W)
    : outcome jsval * W :=
  let (r, w1) := provider_getSecret defaultProvider key w in
  match r with
  | Ret value => (Ret value, w1)
  | Throw error =>
      (* logger?.error({ key, error: error.message }, ...); return null; *)
      match read_prop error "message" with
      | Ret _ => (Ret JNull, w1)
      | Throw e => (Throw e, w1)
      end
  end.

(** The module's [setSecret(key, value)]. *)
Definition setSecret (defaultProvider : secret_provider W) (key : string) (value : jsval)
    (w : W) : outcome bool * W :=
  let (r, w1) := provider_setSecret defaultProvider key value w in
  match r with
  | Ret _ => (Ret true, w1)
  | Throw error =>
      (* logger?.warn({ key, error: error.message }, ...); return false; *)
      match read_prop error "message" with
      | Ret _ => (Ret false, w1)
      | Throw e => (Throw e, w1)
      end
  end.

End Composite.

(** [c.toUpperCase().replace(/[^A-Z0-9_]/g, '_')] for one code unit [c]
    (read as Latin-1): a lower-case letter becomes its capital, a capital,
    digit or underscore stays, ['ß'] becomes ["SS"], and every other code
    unit (whose capital, if any, is outside [[A-Z]]) becomes ['_']. *)
Definition env_name_char (c : ascii) : string :=
  let n := nat_of_ascii c in
  if Nat.leb 97 n && Nat.leb n 122 then String (ascii_of_nat (n - 32)) EmptyString
  else if (Nat.leb 65 n && Nat.leb n 90) || (Nat.leb 48 n && Nat.leb n 57)
          || Ascii.eqb c "_" then String c EmptyString
  else if Nat.eqb n 223 then "SS"
  else "_".

Fixpoint env_name (key : string) : string :=
  match key with
  | EmptyString => EmptyString
  | String c r => env_name_char c ++ env_name r
  end.

(** [envKey] of [EnvironmentProvider.getSecret]. *)
Definition EnvironmentProvider_envKey (prefix key : string) : string :=
  prefix ++ env_name key.

(** The state the default providers read: [process.env] and the [Map]
    of the registered [MemoryProvider]. *)
Record secret_world := {
  env : string -> option string;
  secrets : gmap string jsval
}.

(** [new EnvironmentProvider(prefix)] under Node, where [process.env]
    exists; [setSecret] is the one of [SecretProvider]. *)
Definition EnvironmentProvider (prefix : string) : secret_provider secret_world :=
  {| provider_isAvailable := fun w => (Ret true, w);
     provider_getSecret := fun key w =>
       match env w (EnvironmentProvider_envKey prefix key) with
       | Some value => (Ret (JStr value), w)
       | None => (Ret JNull, w)
       end;
     provider_setSecret := fun _ _ w =>
       (Throw (Error "setSecret method not supported by this provider"), w) |}.

(** [new MemoryProvider()], over the [secrets] of the state. *)
Definition MemoryProvider : secret_provider secret_world :=
  {| provider_isAvailable := fun w => (Ret true, w);
     provider_getSecret := fun key w =>
       match secrets w !! key with
       | Some value => if negb (is_undefined value) then (Ret value, w) else (Ret JNull, w)
       | None => (Ret JNull, w)
       end;
     provider_setSecret := fun key value w =>
       (Ret tt, {| env := env w; secrets := <[key := value]> (secrets w) |}) |}.

(** The default provider of [initializeDefaultProviders()]: environment
    first, then memory. *)
Definition defaultProvider : secret_provider secret_world :=
  CompositeProvider [EnvironmentProvider "A3T_"; MemoryProvider].

(** [clearMemorySecrets()]: [getProvider('memory').clear()], the memory
    provider registered with the default one. *)
Definition clearMemorySecrets (w : secret_world) : secret_world :=
  {| env := env w; secrets := ∅ |}.

(* ================================================================== *)
(** * Proofs *)

Lemma sapp_assoc (a b c : string) : (a ++ b) ++ c = a ++ (b ++ c).
Proof. induction a as [|x a IH]; simpl; congruence. Qed.

Lemma sapp_cons (c : ascii) (a b : string) : String c a ++ b = String c (a ++ b).
Proof. reflexivity. Qed.

Lemma sapp_nil_l (a : string) : EmptyString ++ a = a.
Proof. reflexivity. Qed.

Lemma sapp_nil_r (a : string) : a ++ EmptyString = a.
Proof. induction a as [|x a IH]; simpl; congruence. Qed.

(** ** The JSON reader inverts JSON.stringify *)

Lemma parse_escape_char (c : ascii) (t : string) :
  parse_str (escape_char c ++ t) = cons_res c (parse_str t).
Proof. destruct c as [[] [] [] [] [] [] [] []]; reflexivity. Qed.

Lemma parse_escape (s t : string) :
  parse_str (escape s ++ String dq t) = Some (s, t).
Proof.
  induction s as [|c s IH]; [reflexivity|].
  simpl. rewrite sapp_assoc, parse_escape_char, IH. reflexivity.
Qed.

Lemma quote_app (s t : string) :
  quote s ++ t = String dq (escape s ++ String dq t).
Proof. unfold quote. simpl. rewrite sapp_assoc. reflexivity. Qed.

(** A suffix that ends a JSON value inside an object. *)
Definition stop (t : string) : Prop :=
  exists r, t = String "," r \/ t = String "}" r.

Lemma parse_digits_print (u : Decimal.uint) (t : string) :
  stop t -> parse_digits (print_uint u ++ t) = (u, t).
Proof.
  intros [r [-> | ->]];
    induction u; simpl; try rewrite IHu; reflexivity.
Qed.

Lemma print_Z_pos_nonnil (n : Z) (u : Decimal.uint) :
  Z.to_int n = Decimal.Pos u -> u <> Decimal.Nil.
Proof.
  destruct n as [|p|p]; simpl; intros E; inversion E; subst.
  - discriminate.
  - apply DecimalPos.Unsigned.to_uint_nonnil.
Qed.

Lemma parse_value_json (v : jsval) (s t : string) :
  json_value v = Some s -> stop t -> parse_value (s ++ t) = Some (v, t).
Proof.
  intros Hv Ht. destruct v as [| |[]|n|x]; simpl in Hv; inversion Hv; subst; clear Hv.
  - reflexivity.
  - reflexivity.
  - reflexivity.
  - pose proof (DecimalZ.of_to n) as Hn. unfold print_Z.
    destruct (Z.to_int n) as [u|u] eqn:E.
    + pose proof (print_Z_pos_nonnil n u E) as Hu.
      rewrite <- Hn. clear Hn E.
      destruct u; [congruence| ..];
        simpl; rewrite parse_digits_print by exact Ht; reflexivity.
    + rewrite <- Hn. clear Hn E.
      simpl. rewrite parse_digits_print by exact Ht. reflexivity.
  - rewrite quote_app. simpl. rewrite parse_escape. reflexivity.
Qed.

Lemma parse_member_json (k : string) (v : jsval) (s t : string) :
  json_value v = Some s -> stop t ->
  parse_member (quote k ++ ":" ++ s ++ t) = Some ((k, v), t).
Proof.
  intros Hv Ht. rewrite quote_app. simpl. rewrite parse_escape.
  simpl. rewrite (parse_value_json v s t Hv Ht). reflexivity.
Qed.

Lemma json_members_defined (b : bool) (l : jsobj) :
  json_members b l = json_members b (defined_members l).
Proof.
  revert b. induction l as [|[k v] l IH]; intros b; [reflexivity|].
  destruct v; simpl; rewrite ?IH; reflexivity.
Qed.

Lemma stop_members (l : jsobj) (x : string) :
  stop x -> stop (json_members false l ++ x).
Proof.
  intros Hx. induction l as [|[k v] l IH]; [exact Hx|].
  simpl. destruct (json_value v); [|exact IH].
  eexists. left. reflexivity.
Qed.

Definition all_defined (l : jsobj) : Prop :=
  Forall (fun kv => is_undefined (snd kv) = false) l.

Lemma defined_members_all (l : jsobj) : all_defined (defined_members l).
Proof.
  induction l as [|[k v] l IH]; [constructor|].
  destruct v; simpl; try constructor; auto.
Qed.

Lemma json_value_defined (v : jsval) :
  is_undefined v = false -> exists s, json_value v = Some s.
Proof. destruct v as [| |[]| |]; simpl; eauto; discriminate. Qed.

Lemma json_members_cons_false (k : string) (v : jsval) (s : string) (l : jsobj) :
  json_value v = Some s ->
  json_members false ((k, v) :: l) = String "," (quote k ++ ":" ++ s ++ json_members false l).
Proof. intros H. simpl. rewrite H. reflexivity. Qed.

Lemma json_members_cons_true (k : string) (v : jsval) (s : string) (l : jsobj) :
  json_value v = Some s ->
  json_members true ((k, v) :: l) = quote k ++ ":" ++ s ++ json_members false l.
Proof. intros H. simpl. rewrite H. reflexivity. Qed.

Lemma parse_more_comma (f : nat) (r : string) :
  parse_more (S f) (String "," r) =
  match parse_member r with
  | Some (m, r') =>
      match parse_more f r' with
      | Some (ms, r'') => Some (m :: ms, r'')
      | None => None
      end
  | None => None
  end.
Proof. reflexivity. Qed.

Lemma stop_close (l : jsobj) (t : string) : stop (json_members false l ++ String "}" t).
Proof. apply stop_members. eexists. right. reflexivity. Qed.

Lemma parse_more_json (fuel : nat) (l : jsobj) (t : string) :
  all_defined l -> (length l <= fuel)%nat ->
  parse_more fuel (json_members false l ++ String "}" t) = Some (l, t).
Proof.
  revert fuel. induction l as [|[k v] l IH]; intros fuel Hd Hlen;
    [destruct fuel; reflexivity|].
  inversion Hd as [|? ? Hv Hd']; subst. simpl in Hv.
  destruct (json_value_defined v Hv) as [s Hs].
  destruct fuel as [|f]; [simpl in Hlen; lia|].
  rewrite (json_members_cons_false k v s l Hs), sapp_cons.
  rewrite !sapp_assoc, parse_more_comma.
  rewrite (parse_member_json k v s) by (exact Hs || apply stop_close).
  rewrite IH by (auto; simpl in Hlen; lia). reflexivity.
Qed.

Lemma parse_object_open (fuel : nat) (c : ascii) (r : string) :
  c <> "}"%char ->
  parse_object fuel (String "{" (String c r)) =
  match parse_member (String c r) with
  | Some (m, r') =>
      match parse_more fuel r' with
      | Some (ms, r'') => Some (m :: ms, r'')
      | None => None
      end
  | None => None
  end.
Proof.
  intros Hc. destruct c as [[] [] [] [] [] [] [] []]; try reflexivity.
  exfalso. apply Hc. reflexivity.
Qed.

Lemma parse_object_json (fuel : nat) (l : jsobj) (t : string) :
  all_defined l -> (length l <= S fuel)%nat ->
  parse_object fuel (json_object l ++ t) = Some (l, t).
Proof.
  intros Hd Hlen. destruct l as [|[k v] l]; [reflexivity|].
  inversion Hd as [|? ? Hv Hd']; subst. simpl in Hv.
  destruct (json_value_defined v Hv) as [s Hs].
  unfold json_object. rewrite (json_members_cons_true k v s l Hs).
  rewrite !sapp_assoc.
  rewrite (sapp_cons "{" EmptyString), (sapp_cons "}" EmptyString).
  rewrite !sapp_nil_l, quote_app, parse_object_open by discriminate.
  rewrite <- quote_app.
  rewrite (parse_member_json k v s) by (exact Hs || apply stop_close).
  rewrite parse_more_json by (auto; simpl in Hlen; lia). reflexivity.
Qed.


(** ** Cache keys determine the context fields they serialise *)

Lemma length_defined_members (l : jsobj) : (length (defined_members l) <= length l)%nat.
Proof.
  unfold defined_members.
  induction l as [|[k v] l IH]; [simpl; lia|].
  destruct v; simpl; lia.
Qed.

Lemma json_object_defined (l : jsobj) :
  json_object l = json_object (defined_members l).
Proof. unfold json_object. rewrite json_members_defined. reflexivity. Qed.

Lemma json_object_inj (l1 l2 : jsobj) :
  json_object l1 = json_object l2 -> defined_members l1 = defined_members l2.
Proof.
  intros E.
  set (fuel := (length l1 + length l2)%nat).
  pose proof (parse_object_json fuel (defined_members l1) EmptyString
                (defined_members_all l1)) as P1.
  pose proof (parse_object_json fuel (defined_members l2) EmptyString
                (defined_members_all l2)) as P2.
  pose proof (length_defined_members l1). pose proof (length_defined_members l2).
  rewrite <- json_object_defined in P1, P2.
  rewrite E in P1. rewrite P2 in P1 by lia.
  assert (Some (defined_members l2, EmptyString) = Some (defined_members l1, EmptyString))
    as Q by (apply P1; lia).
  congruence.
Qed.

Lemma get_not_in (l : jsobj) (f : string) :
  ~ In f (map fst l) -> get l f = JUndefined.
Proof.
  induction l as [|[k v] l IH]; simpl; intros Hn; [reflexivity|].
  destruct (String.eqb_spec f k); [subst; tauto|]. apply IH. tauto.
Qed.

Lemma get_defined_members (l : jsobj) (f : string) :
  NoDup (map fst l) -> get (defined_members l) f = get l f.
Proof.
  induction l as [|[k v] l IH]; intros Hnd; [reflexivity|].
  inversion Hnd as [|? ? Hk Hnd']; subst.
  unfold defined_members in *. simpl.
  destruct (String.eqb_spec f k) as [->|Hne].
  - destruct v; simpl; rewrite ?String.eqb_refl; try reflexivity.
    rewrite IH by exact Hnd'. apply get_not_in.
    intros Hin. apply Hk. apply list_elem_of_In. exact Hin.
  - destruct v; simpl; try (apply String.eqb_neq in Hne; rewrite Hne); apply IH; exact Hnd'.
Qed.

(** The context fields written into a cache key. *)
Definition cache_key_fields : list string :=
  ["language"; "workspace"; "system"; "buildHash"; "nonce"].

Lemma cache_key_object_nodup (key : string) (context : jsobj) :
  NoDup (map fst (cache_key_object key context)).
Proof. simpl. apply (bool_decide_unpack _). reflexivity. Qed.

Lemma get_cache_key_object (key : string) (context : jsobj) (f : string) :
  In f cache_key_fields -> get (cache_key_object key context) f = get context f.
Proof. simpl. intros [<-|[<-|[<-|[<-|[<-|[]]]]]]; reflexivity. Qed.

Lemma getCacheKey_fields (g1 o1 g2 o2 : jsobj) (key : string) (f : string) :
  getCacheKey g1 key o1 = getCacheKey g2 key o2 -> In f cache_key_fields ->
  get (spread g1 o1) f = get (spread g2 o2) f.
Proof.
  unfold getCacheKey. intros E Hf.
  apply json_object_inj in E.
  rewrite <- (get_cache_key_object key _ f Hf), <- (get_cache_key_object key (spread g2 o2) f Hf).
  rewrite <- (get_defined_members (cache_key_object key (spread g1 o1)))
    by apply cache_key_object_nodup.
  rewrite <- (get_defined_members (cache_key_object key (spread g2 o2)))
    by apply cache_key_object_nodup.
  rewrite E. reflexivity.
Qed.

(** ** The override hierarchy *)

(** The hierarchy as the claim words it: tiers in a fixed order, a tier
    present when all its fields are set (truthy), each query made of the
    tier's fields followed by the key. *)
Definition hierarchy_claim (context : jsobj) (key : string) : list jsobj :=
  let tiers := [["workspace"; "language"]; ["workspace"]; ["language"]; ["system"]; []] in
  map (fun fs => (map (fun f => (f, get context f)) fs ++ [("key", JStr key)])%list)
      (List.filter (fun fs => forallb (fun f => truthy (get context f)) fs) tiers).

(** The global context a3t starts with (no A3T_* variables set). *)
Definition initialContext : jsobj :=
  [("language", JNull); ("workspace", JNull); ("system", JNull);
   ("buildHash", JStr "default"); ("nonce", JNum 0)].

(** [C2] getDbQueryHierarchy lists, for the effective context, the
    queries {workspace, language, key}, {workspace, key}, {language, key},
    {system, key} in this order, each only when its fields are set, and
    always {key} last; no query carries an unset field.  For
    {workspace:"ws1", language:"en", system:"sys1"} and key "k" it is the
    five-query list, for {language:"en"} alone the two-query list. *)
Theorem getDbQueryHierarchy_order (g o : jsobj) (key : string) :
  getDbQueryHierarchy g key o = hierarchy_claim (spread g o) key /\
  Forall (fun q => Forall (fun fv => fst fv = "key" \/ truthy (snd fv) = true) q)
         (getDbQueryHierarchy g key o) /\
  getDbQueryHierarchy initialContext "k"
    [("workspace", JStr "ws1"); ("language", JStr "en"); ("system", JStr "sys1")] =
  [[("workspace", JStr "ws1"); ("language", JStr "en"); ("key", JStr "k")];
   [("workspace", JStr "ws1"); ("key", JStr "k")];
   [("language", JStr "en"); ("key", JStr "k")];
   [("system", JStr "sys1"); ("key", JStr "k")];
   [("key", JStr "k")]] /\
  getDbQueryHierarchy initialContext "k" [("language", JStr "en")] =
  [[("language", JStr "en"); ("key", JStr "k")]; [("key", JStr "k")]].
Proof.
  split; [|split; [|split; reflexivity]].
  - unfold getDbQueryHierarchy, hierarchy_claim. simpl.
    destruct (truthy (get (spread g o) "workspace"));
    destruct (truthy (get (spread g o) "language"));
    destruct (truthy (get (spread g o) "system")); reflexivity.
  - unfold getDbQueryHierarchy. cbv zeta.
    destruct (truthy (get (spread g o) "workspace")) eqn:Hw;
    destruct (truthy (get (spread g o) "language")) eqn:Hl;
    destruct (truthy (get (spread g o) "system")) eqn:Hs; simpl;
    repeat match goal with
           | |- Forall _ [] => constructor
           | |- Forall _ (_ :: _) => constructor
           | |- _ \/ _ => first [left; reflexivity | right; assumption]
           end.
Qed.

(** [C4] Two effective contexts that differ in language, workspace,
    system, buildHash or nonce give the same asset key different cache
    keys. *)
Theorem getCacheKey_separates (g1 o1 g2 o2 : jsobj) (key : string) :
  (exists f, In f cache_key_fields /\ get (spread g1 o1) f <> get (spread g2 o2) f) ->
  getCacheKey g1 key o1 <> getCacheKey g2 key o2.
Proof.
  intros [f [Hf Hne]] E. apply Hne. exact (getCacheKey_fields g1 o1 g2 o2 key f E Hf).
Qed.






(** ** Resolution *)

Section ResolverProofs.
Context {W : Type}.

Lemma query_loop_throw (find : db_backend W) (qs : list jsobj) (w w' : W) (e : exn) :
  query_loop find qs w = (Throw e, w') -> e = TypeError.
Proof.
  revert w. induction qs as [|q qs IH]; intros w; simpl; [congruence|].
  destruct (find q w) as [[r|err] w1].
  - destruct (negb (nullish r)); [congruence|apply IH].
  - destruct err; simpl; [congruence|apply IH].
Qed.

Lemma queryDatabase_throw (db : option (db_backend W)) (qs : list jsobj) (w w' : W) (e : exn) :
  queryDatabase db qs w = (Throw e, w') -> e = TypeError.
Proof. destruct db; simpl; [apply query_loop_throw|congruence]. Qed.

Lemma readFromFilesystem_throw (fsb : fs_backend W) (key : string) (binary : bool)
    (w w' : W) (e : exn) :
  readFromFilesystem fsb key binary w = (Throw e, w') -> e = TypeError.
Proof.
  unfold readFromFilesystem.
  destruct (if binary then readBinaryAsset fsb key w else readAsset fsb key w)
    as [[v|err] w1]; [congruence|].
  destruct err; simpl; congruence.
Qed.

(** What escapes the [try] block of [resolveAsset] is always a TypeError
    object, never [null] or [undefined]. *)
Lemma resolve_try_throw (db : option (db_backend W)) (fsb : fs_backend W) (g : jsobj)
    (key : string) (d : jsval) (o : jsobj) (binary : bool) (w w' : W) (e : exn) :
  resolve_try db fsb g key d o binary w = (Throw e, w') -> e = TypeError.
Proof.
  unfold resolve_try.
  destruct (queryDatabase db _ w) as [[r1|e1] w1] eqn:Q.
  - destruct (negb (nullish r1)); [congruence|].
    destruct (readFromFilesystem fsb key binary w1) as [[r2|e2] w2] eqn:F.
    + destruct (negb (nullish r2)); [congruence|].
      destruct (negb (is_undefined d)); congruence.
    + intros [= ->]. exact (readFromFilesystem_throw _ _ _ _ _ _ F).
  - intros [= ->]. exact (queryDatabase_throw _ _ _ _ _ Q).
Qed.

(** A miss always ends with a value and an entry under the cache key;
    a hit changes nothing. *)
Lemma resolveAsset_commits (db : option (db_backend W)) (fsb : fs_backend W)
    (key : string) (d : jsval) (o : jsobj) (binary : bool) (s : a3t_state W) :
  exists v s' e,
    resolveAsset db fsb key d o binary s = (Ret v, s') /\
    globalContext s' = globalContext s /\
    cache s' !! getCacheKey (globalContext s) key o = Some e /\
    v = (if found e then value e else d).
Proof.
  unfold resolveAsset, getCached.
  destruct (cache s !! getCacheKey (globalContext s) key o) as [c|] eqn:C.
  - eexists _, s, c. auto.
  - destruct (resolve_try db fsb (globalContext s) key d o binary (world s))
      as [[[f v]|err] w1] eqn:T.
    + eexists _, _, _. split; [reflexivity|]. simpl.
      split; [reflexivity|]. split; [apply lookup_insert_eq|]. simpl.
      unfold resolve_try in T.
      destruct (queryDatabase db _ (world s)) as [[r1|e1] w2]; [|discriminate].
      destruct (negb (nullish r1)); [injection T as <- <-; reflexivity|].
      destruct (readFromFilesystem fsb key binary w2) as [[r2|e2] w3]; [|discriminate].
      destruct (negb (nullish r2)); [injection T as <- <-; reflexivity|].
      destruct (negb (is_undefined d)) eqn:D; injection T as <- <-; [reflexivity|].
      destruct d; simpl in D; congruence.
    + rewrite (resolve_try_throw _ _ _ _ _ _ _ _ _ _ T). simpl.
      destruct (negb (is_undefined d)) eqn:D.
      * eexists _, _, _. split; [reflexivity|]. simpl.
        split; [reflexivity|]. split; [apply lookup_insert_eq|]. reflexivity.
      * eexists _, _, _. split; [reflexivity|]. simpl.
        split; [reflexivity|]. split; [apply lookup_insert_eq|].
        simpl. destruct d; simpl in D; congruence.
Qed.

End ResolverProofs.

(** A content backend that finds nothing. *)
Definition empty_fs {W} : fs_backend W :=
  {| readAsset := fun _ w => (Ret JNull, w); readBinaryAsset := fun _ w => (Ret JNull, w) |}.

Definition initialState : a3t_state unit :=
  {| globalContext := initialContext; cache := ∅; world := tt |}.

(** [C1], the claim as worded: with empty tiers, resolve("k", "d1")
    followed by resolve("k", "d2") under the same context returns "d1"
    the second time, not "d2". *)
Lemma resolveAsset_default_not_fresh :
  let s1 := snd (resolveAsset None empty_fs "k" (JStr "d1") [] false initialState) in
  fst (resolveAsset None empty_fs "k" (JStr "d2") [] false s1) = Ret (JStr "d1") /\
  fst (resolveAsset None empty_fs "k" (JStr "d2") [] false s1) <> Ret (JStr "d2").
Proof. split; [reflexivity|]. vm_compute. congruence. Qed.

(** [C1], as amended: when the database and filesystem tiers yield
    nothing, resolve(key, d1, ctx) caches d1 as found when d1 is not
    undefined, and a not-found entry otherwise; a later
    resolve(key, d2, ctx) under the same context then returns d1 in the
    first case and its own d2 in the second. *)
Theorem resolveAsset_default_cached {W} (db : option (db_backend W)) (fsb : fs_backend W)
    (key : string) (d1 d2 : jsval) (o : jsobj) (binary : bool) (s : a3t_state W) :
  getCached s (getCacheKey (globalContext s) key o) = None ->
  (forall w, exists v w', queryDatabase db (getDbQueryHierarchy (globalContext s) key o) w
                          = (Ret v, w') /\ nullish v = true) ->
  (forall w, exists v w', readFromFilesystem fsb key binary w = (Ret v, w') /\ nullish v = true) ->
  fst (resolveAsset db fsb key d2 o binary (snd (resolveAsset db fsb key d1 o binary s)))
  = Ret (if is_undefined d1 then d2 else d1).
Proof.
  intros Hmiss Hdb Hfs.
  destruct (Hdb (world s)) as [v1 [w1 [Q N1]]].
  destruct (Hfs w1) as [v2 [w2 [F N2]]].
  unfold resolveAsset at 2. rewrite Hmiss. unfold resolve_try. rewrite Q, N1. simpl.
  rewrite F, N2. simpl.
  destruct d1; simpl; unfold resolveAsset, getCached; simpl; rewrite lookup_insert_eq;
    reflexivity.
Qed.

Lemma resolveAsset_default_cached_witness :
  getCached initialState (getCacheKey (globalContext initialState) "k" []) = None /\
  fst (resolveAsset None empty_fs "k" (JStr "d2") [] false
         (snd (resolveAsset None empty_fs "k" JUndefined [] false initialState)))
  = Ret (if is_undefined JUndefined then JStr "d2" else JUndefined).
Proof.
  split; [reflexivity|].
  apply resolveAsset_default_cached.
  - reflexivity.
  - intros w. exists JNull, w. split; reflexivity.
  - intros w. exists JNull, w. split; reflexivity.
Defined.

(** [C3] resolveAsset returns normally for every backend behaviour, and
    when the [try] block throws it returns the default if that is not
    undefined, and undefined otherwise. *)
Theorem resolveAsset_never_throws {W} (db : option (db_backend W)) (fsb : fs_backend W)
    (key : string) (d : jsval) (o : jsobj) (binary : bool) (s : a3t_state W) :
  (exists v s', resolveAsset db fsb key d o binary s = (Ret v, s')) /\
  (forall e w', getCached s (getCacheKey (globalContext s) key o) = None ->
     resolve_try db fsb (globalContext s) key d o binary (world s) = (Throw e, w') ->
     fst (resolveAsset db fsb key d o binary s) = Ret (if is_undefined d then JUndefined else d)).
Proof.
  split.
  - destruct (resolveAsset_commits db fsb key d o binary s) as [v [s' [e [R _]]]].
    eauto.
  - intros e w' Hmiss T. unfold resolveAsset. rewrite Hmiss, T.
    rewrite (resolve_try_throw _ _ _ _ _ _ _ _ _ _ T). simpl.
    destruct d; reflexivity.
Qed.

(** A database backend whose every probe rejects with [undefined]. *)
Definition rejecting_db : db_backend unit := fun _ w => (Throw ExnNullish, w).

Lemma resolveAsset_never_throws_witness :
  getCached initialState (getCacheKey initialContext "k" []) = None /\
  resolve_try (Some rejecting_db) empty_fs initialContext "k" (JStr "d") [] false tt
    = (Throw TypeError, tt) /\
  fst (resolveAsset (Some rejecting_db) empty_fs "k" (JStr "d") [] false initialState)
    = Ret (if is_undefined (JStr "d") then JUndefined else JStr "d").
Proof.
  split; [reflexivity|]. split; [reflexivity|].
  apply (proj2 (resolveAsset_never_throws (Some rejecting_db) empty_fs "k" (JStr "d") []
                  false initialState) TypeError tt); reflexivity.
Defined.


Lemma getCacheKey_separates_witness :
  getCacheKey initialContext "k" [("language", JStr "en")]
  <> getCacheKey initialContext "k" [("language", JStr "fr")].
Proof.
  apply getCacheKey_separates. exists "language". split.
  - simpl. auto.
  - discriminate.
Defined.

(** ** Database probing *)

(** A probe that rejects with an [Error] object is skipped. *)
Lemma query_loop_skips_error {W} (find : db_backend W) (q : jsobj) (rest : list jsobj)
    (w w1 : W) (props : jsobj) :
  find q w = (Throw (ExnValue props), w1) ->
  query_loop find (q :: rest) w = query_loop find rest w1.
Proof. intros E. simpl. rewrite E. reflexivity. Qed.

(** A probe that rejects with [undefined] or [null] ends the loop with
    the TypeError raised by reading [error.message]. *)
Lemma query_loop_nullish_rejection {W} (find : db_backend W) (q : jsobj) (rest : list jsobj)
    (w w1 : W) :
  find q w = (Throw ExnNullish, w1) ->
  query_loop find (q :: rest) w = (Throw TypeError, w1).
Proof. intros E. simpl. rewrite E. reflexivity. Qed.

(** A recording asset store: it logs every query it receives, rejects
    with [reject_with] the queries that name a workspace, and finds "v"
    for the others. *)
Definition recording_db (reject_with : exn) : db_backend (list jsobj) :=
  fun q w =>
    (if is_undefined (get q "workspace") then Ret (JStr "v") else Throw reject_with,
     app w [q]).

Definition ws_override : jsobj := [("workspace", JStr "ws1")].

Definition recordingState : a3t_state (list jsobj) :=
  {| globalContext := initialContext; cache := ∅; world := [] |}.

(** [C6] With the workspace set and a store that rejects the
    workspace query with [undefined] ([Promise.reject()]), queryDatabase
    probes only that first query and throws; resolveAsset then falls back
    to the default (here undefined) although the later query [{key}]
    would have found "v". The same store rejecting with an [Error]
    object lets the later query succeed. *)
Theorem queryDatabase_undefined_rejection :
  queryDatabase (Some (recording_db ExnNullish))
    (getDbQueryHierarchy initialContext "k" ws_override) []
  = (Throw TypeError, [[("workspace", JStr "ws1"); ("key", JStr "k")]]) /\
  fst (resolveAsset (Some (recording_db ExnNullish)) empty_fs "k" JUndefined ws_override
         false recordingState) = Ret JUndefined /\
  fst (resolveAsset (Some (recording_db (Error "db down"))) empty_fs "k" JUndefined
         ws_override false recordingState) = Ret (JStr "v").
Proof. split; [|split]; reflexivity. Qed.

(** ** Extension fields and the cache *)

Lemma getCacheKey_agree (g1 o1 g2 o2 : jsobj) (key : string) :
  (forall f, In f cache_key_fields -> get (spread g1 o1) f = get (spread g2 o2) f) ->
  getCacheKey g1 key o1 = getCacheKey g2 key o2.
Proof.
  intros H. unfold getCacheKey, cache_key_object. cbv zeta.
  rewrite (H "language"), (H "workspace"), (H "system"), (H "buildHash"), (H "nonce");
    simpl; auto 6.
Qed.

(** [C10] Contexts that agree on language, workspace, system, buildHash
    and nonce give the same cache key whatever their other fields (such
    as user); so once a resolve call has run under the first context, a
    resolve call under the second one, with any backends, reads the entry
    the first call wrote and returns its value (or its own default for a
    not-found entry) without probing anything. *)
Theorem getCacheKey_ignores_extensions {W} (g1 o1 g2 o2 : jsobj) (key : string) :
  (forall f, In f cache_key_fields -> get (spread g1 o1) f = get (spread g2 o2) f) ->
  getCacheKey g1 key o1 = getCacheKey g2 key o2 /\
  forall (db1 db2 : option (db_backend W)) (fsb1 fsb2 : fs_backend W) (d1 d2 : jsval)
         (b1 b2 : bool) (s s2 : a3t_state W),
    globalContext s = g1 -> globalContext s2 = g2 ->
    cache s2 = cache (snd (resolveAsset db1 fsb1 key d1 o1 b1 s)) ->
    exists e, cache s2 !! getCacheKey g2 key o2 = Some e /\
      resolveAsset db2 fsb2 key d2 o2 b2 s2 = (Ret (if found e then value e else d2), s2).
Proof.
  intros H. pose proof (getCacheKey_agree g1 o1 g2 o2 key H) as K. split; [exact K|].
  intros db1 db2 fsb1 fsb2 d1 d2 b1 b2 s s2 Hs Hs2 C.
  destruct (resolveAsset_commits db1 fsb1 key d1 o1 b1 s) as [v [s' [e [R [_ [L _]]]]]].
  rewrite R in C. simpl in C. subst g1 g2.
  exists e. rewrite C, <- K. split; [exact L|].
  unfold resolveAsset, getCached. rewrite C, <- K, L. reflexivity.
Qed.

(** Alice's request and Bob's request, same workspace and language. *)
Definition alice_ctx : jsobj := [("user", JStr "alice"); ("language", JStr "en")].
Definition bob_ctx : jsobj := [("user", JStr "bob"); ("language", JStr "en")].

(** Content backends scoped per user, as the repository backend is. *)
Definition user_fs (notes : string) : fs_backend unit :=
  {| readAsset := fun _ w => (Ret (JStr notes), w);
     readBinaryAsset := fun _ w => (Ret (JStr notes), w) |}.

Definition after_alice : a3t_state unit :=
  snd (resolveAsset None (user_fs "alice-notes") "k" JUndefined alice_ctx false initialState).

Lemma getCacheKey_ignores_extensions_witness :
  getCacheKey initialContext "k" alice_ctx = getCacheKey initialContext "k" bob_ctx /\
  fst (resolveAsset None (user_fs "bob-notes") "k" JUndefined bob_ctx false after_alice)
  = Ret (JStr "alice-notes").
Proof.
  destruct (getCacheKey_ignores_extensions (W := unit)
              initialContext alice_ctx initialContext bob_ctx "k") as [K R].
  - intros f Hf. simpl in Hf.
    repeat (destruct Hf as [<-|Hf]; [reflexivity|]). destruct Hf.
  - split; [exact K|].
    destruct (R None None (user_fs "alice-notes") (user_fs "bob-notes") JUndefined JUndefined
                false false initialState after_alice eq_refl eq_refl eq_refl) as [e [L E]].
    rewrite E. vm_compute in L. injection L as <-. reflexivity.
Defined.

(** ** Path traversal *)

Fixpoint no_slash (s : string) : bool :=
  match s with
  | EmptyString => true
  | String c r => negb (Ascii.eqb c "/") && no_slash r
  end.

(** A segment of a resolved path: non-empty and without ["/"]. *)
Definition seg_ok (x : string) : Prop := no_slash x = true /\ x <> EmptyString.

(** The segment list [a] is a prefix of [b]. *)
Fixpoint list_prefix (a b : list string) : bool :=
  match a, b with
  | [], _ => true
  | x :: a', y :: b' => String.eqb x y && list_prefix a' b'
  | _ :: _, [] => false
  end.

(** [p] lies inside [root] once both are resolved. *)
Definition inside (cwd root p : string) : bool :=
  list_prefix (resolve_segs cwd root) (resolve_segs cwd p).

Definition starts_slash (s : string) : Prop := exists s', s = String "/" s'.

Lemma split_slash_no_slash (s : string) : Forall (fun x => no_slash x = true) (split_slash s).
Proof.
  induction s as [|c r IH]; simpl.
  - constructor; [reflexivity|constructor].
  - destruct (Ascii.eqb c "/") eqn:E.
    + constructor; [reflexivity|exact IH].
    + destruct (split_slash r) as [|x l].
      * constructor; [simpl; rewrite E; reflexivity|constructor].
      * inversion IH as [|? ? Hx Hl]; subst.
        constructor; [simpl; rewrite E, Hx; reflexivity|exact Hl].
Qed.

Lemma normalize_segs_ok (a : bool) (st segs : list string) :
  Forall seg_ok st -> Forall (fun x => no_slash x = true) segs ->
  Forall seg_ok (normalize_segs a st segs).
Proof.
  revert st. induction segs as [|x l IH]; intros st Hst Hsegs; simpl; [exact Hst|].
  inversion Hsegs as [|? ? Hx Hl]; subst.
  destruct (String.eqb x EmptyString) eqn:E0; [apply IH; auto|].
  destruct (String.eqb x ".") eqn:E1; simpl; [apply IH; auto|].
  destruct (String.eqb x "..") eqn:E2.
  - destruct st as [|y st].
    + destruct a; apply IH; auto. constructor; [split; [reflexivity|discriminate]|constructor].
    + inversion Hst as [|? ? Hy Hst']; subst.
      destruct (negb (String.eqb y "..")); [apply IH; auto|].
      destruct a; apply IH; auto.
      constructor; [split; [reflexivity|discriminate]|exact Hst].
  - apply IH; auto. constructor; [|exact Hst].
    split; [exact Hx|]. intros ->. discriminate.
Qed.

Lemma resolve_segs_ok (cwd p : string) : Forall seg_ok (resolve_segs cwd p).
Proof.
  unfold resolve_segs. apply Forall_rev, normalize_segs_ok; [constructor|].
  apply split_slash_no_slash.
Qed.

Lemma prefix_cons (c d : ascii) (s t : string) :
  String.prefix (String c s) (String d t) = if ascii_dec c d then String.prefix s t else false.
Proof. reflexivity. Qed.

Lemma prefix_split (x y r t : string) :
  no_slash x = true -> no_slash y = true -> starts_slash r ->
  (t = EmptyString \/ starts_slash t) ->
  String.prefix (x ++ r) (y ++ t) = true -> x = y /\ String.prefix r t = true.
Proof.
  revert y. induction x as [|c x IH]; intros y Hx Hy [r' ->] Ht; destruct y as [|d y];
    rewrite ?sapp_nil_l, ?sapp_cons; intros H.
  - auto.
  - rewrite prefix_cons in H.
    destruct (ascii_dec "/" d) as [<-|]; [simpl in Hy; discriminate Hy|discriminate H].
  - destruct Ht as [->|[t' ->]]; [discriminate H|].
    rewrite prefix_cons in H.
    destruct (ascii_dec c "/") as [->|]; [simpl in Hx; discriminate Hx|discriminate H].
  - rewrite prefix_cons in H.
    simpl in Hx, Hy. apply andb_prop in Hx as [_ Hx]. apply andb_prop in Hy as [_ Hy].
    destruct (ascii_dec c d) as [<-|]; [|discriminate H].
    destruct (IH y Hx Hy (ex_intro _ r' eq_refl) Ht H) as [-> H']. auto.
Qed.

Lemma app_split (x y r t : string) :
  no_slash x = true -> no_slash y = true ->
  (r = EmptyString \/ starts_slash r) -> (t = EmptyString \/ starts_slash t) ->
  x ++ r = y ++ t -> x = y /\ r = t.
Proof.
  revert y. induction x as [|c x IH]; intros y Hx Hy Hr Ht; destruct y as [|d y]; simpl.
  - auto.
  - intros ->. destruct Hr as [Hr|[r' Hr]]; [discriminate|].
    injection Hr as -> _. simpl in Hy. discriminate Hy.
  - intros <-. destruct Ht as [Ht|[t' Ht]]; [discriminate|].
    injection Ht as -> _. simpl in Hx. discriminate Hx.
  - simpl in Hx, Hy. apply andb_prop in Hx as [_ Hx]. apply andb_prop in Hy as [_ Hy].
    intros H. injection H as <- H. destruct (IH y Hx Hy Hr Ht H) as [-> ->]. auto.
Qed.

Lemma seg_tail_shape (l : list string) : seg_tail l = EmptyString \/ starts_slash (seg_tail l).
Proof. destruct l; simpl; [left; reflexivity|right; eexists; reflexivity]. Qed.

Lemma seg_tail_prefix (a b : list string) :
  Forall seg_ok a -> Forall seg_ok b ->
  String.prefix (seg_tail a ++ "/") (seg_tail b) = true -> list_prefix a b = true.
Proof.
  revert b. induction a as [|x a IH]; intros b Ha Hb; [reflexivity|].
  destruct b as [|y b]; [discriminate|].
  inversion Ha as [|? ? [Hx _] Ha']; inversion Hb as [|? ? [Hy _] Hb']; subst.
  simpl seg_tail. rewrite sapp_cons, prefix_cons, sapp_assoc.
  destruct (ascii_dec "/" "/") as [_|n]; [|congruence].
  intros H. destruct (prefix_split x y (seg_tail a ++ "/") (seg_tail b) Hx Hy) as [-> H'].
  - destruct a; simpl; eexists; reflexivity.
  - apply seg_tail_shape.
  - exact H.
  - cbn [list_prefix]. rewrite String.eqb_refl. simpl. auto.
Qed.

Lemma seg_tail_inj (a b : list string) :
  Forall seg_ok a -> Forall seg_ok b -> seg_tail a = seg_tail b -> a = b.
Proof.
  revert b. induction a as [|x a IH]; intros b Ha Hb; destruct b as [|y b]; simpl;
    try discriminate; [reflexivity|].
  inversion Ha as [|? ? [Hx _] Ha']; inversion Hb as [|? ? [Hy _] Hb']; subst.
  intros H. injection H as H.
  destruct (app_split x y (seg_tail a) (seg_tail b) Hx Hy (seg_tail_shape a) (seg_tail_shape b) H)
    as [-> H']. f_equal. auto.
Qed.

Lemma list_prefix_refl (a : list string) : list_prefix a a = true.
Proof. induction a; cbn [list_prefix]; [reflexivity|]. rewrite String.eqb_refl. assumption. Qed.

Lemma prefix_empty (s : string) : String.prefix s EmptyString = true -> s = EmptyString.
Proof. destruct s; simpl; congruence. Qed.

Lemma render_cons (x : string) (a : list string) :
  "/" ++ join_segs (x :: a) = seg_tail (x :: a).
Proof. reflexivity. Qed.

Lemma render_nil : "/" ++ join_segs [] = String "/" EmptyString.
Proof. reflexivity. Qed.

(** The textual guard accepts only paths whose segments extend the root's. *)
Lemma traversal_guard_sound (a b : list string) :
  Forall seg_ok a -> Forall seg_ok b ->
  traversal_rejected ("/" ++ join_segs b) ("/" ++ join_segs a) = false ->
  list_prefix a b = true.
Proof.
  intros Ha Hb. unfold traversal_rejected, startsWith, sep.
  destruct a as [|x a]; [reflexivity|].
  rewrite render_cons. intros H.
  destruct (String.prefix _ _) eqn:P.
  - destruct b as [|y b].
    + rewrite render_nil in P. cbn [seg_tail] in P.
      rewrite sapp_cons, prefix_cons in P.
      destruct (ascii_dec "/" "/") as [_|n]; [|congruence].
      apply prefix_empty in P. destruct (x ++ seg_tail a); discriminate P.
    + rewrite render_cons in P. exact (seg_tail_prefix (x :: a) (y :: b) Ha Hb P).
  - cbn [negb andb] in H. destruct (String.eqb _ _) eqn:Q; [|discriminate H].
    apply String.eqb_eq in Q.
    destruct b as [|y b].
    + inversion Ha as [|? ? [_ Hx] _]; subst.
      change (String "/" EmptyString = String "/" (x ++ seg_tail a)) in Q.
      injection Q as Q. destruct x; [congruence|discriminate].
    + change (seg_tail (y :: b) = seg_tail (x :: a)) in Q.
      assert (E : y :: b = x :: a) by (apply seg_tail_inj; auto).
      rewrite E. apply list_prefix_refl.
Qed.

Lemma guard_rejects_outside (cwd root p : string) :
  inside cwd root p = false ->
  traversal_rejected (path_resolve cwd p) (path_resolve cwd root) = true.
Proof.
  intros Hout. destruct (traversal_rejected _ _) eqn:T; [reflexivity|].
  apply traversal_guard_sound in T; [|apply resolve_segs_ok|apply resolve_segs_ok].
  unfold inside in Hout. congruence.
Qed.

Lemma path_join_js_throw (args : list jsval) (e : exn) :
  path_join_js args = Throw e -> exists props, e = ExnValue props.
Proof. unfold path_join_js. destruct (path_args args); intros [= <-]; eauto. Qed.

Section GitProofs.
Context {W : Type}.

Lemma ensureRepository_ret (gw : git_world (W := W)) config context w repoPath w' :
  ensureRepository gw config context w = (Ret repoPath, w') ->
  getLocalRepoPath config context = Ret repoPath.
Proof.
  unfold ensureRepository. destruct (getLocalRepoPath config context) as [p|e]; [|congruence].
  destruct (repo_fresh gw p w) as [[] w1]; [congruence|].
  destruct (repo_sync gw p w1) as [[v|err] w2]; [congruence|].
  destruct (read_prop err "message"); congruence.
Qed.

(** What [ensureRepository] throws is always an object. *)
Lemma ensureRepository_throw (gw : git_world (W := W)) config context w e w' :
  ensureRepository gw config context w = (Throw e, w') -> exists props, e = ExnValue props.
Proof.
  unfold ensureRepository. destruct (getLocalRepoPath config context) as [p|e0] eqn:G.
  - destruct (repo_fresh gw p w) as [[] w1]; [congruence|].
    destruct (repo_sync gw p w1) as [[v|err] w2]; [congruence|].
    destruct err; simpl; intros [= <- _]; eauto.
  - intros [= <- _]. unfold getLocalRepoPath in G. exact (path_join_js_throw _ _ G).
Qed.

End GitProofs.

(** [C7] A key whose resolved path lies outside the resolved root makes
    the text and binary reads of NodeFsBackend return null without
    touching the file system; for GitFsBackend, a key outside the
    resolved repository directory makes both reads return null, also
    when the repository cannot be prepared. An ordinary missing file
    (an [ENOENT] error, or any other error object) reads as the same
    null. *)
Theorem reads_reject_traversal {W} (cwd : string) :
  (forall (rootPath key : string) (readFile readFileBinary : string -> W -> outcome jsval * W)
          (w : W),
     inside cwd rootPath (path_join [rootPath; key]) = false ->
     NodeFsBackend_readAsset cwd rootPath readFile key w = (Ret JNull, w) /\
     NodeFsBackend_readBinaryAsset cwd rootPath readFileBinary key w = (Ret JNull, w)) /\
  (forall (gw : git_world) (config : git_config) (context : jsobj) (key : string) (w : W),
     (forall repoPath, getLocalRepoPath config context = Ret repoPath ->
        inside cwd repoPath (path_join [repoPath; key]) = false) ->
     fst (GitFsBackend_readAsset gw cwd config context key w) = Ret JNull /\
     fst (GitFsBackend_readBinaryAsset gw cwd config context key w) = Ret JNull) /\
  (forall (rootPath key : string) (readFile : string -> W -> outcome jsval * W)
          (w w1 : W) (props : jsobj),
     readFile (path_join [rootPath; key]) w = (Throw (ExnValue props), w1) ->
     fst (NodeFsBackend_readAsset cwd rootPath readFile key w) = Ret JNull).
Proof.
  split; [|split].
  - intros rootPath key rf rfb w Hout.
    unfold NodeFsBackend_readAsset, NodeFsBackend_readBinaryAsset.
    rewrite (guard_rejects_outside _ _ _ Hout). split; reflexivity.
  - intros gw config context key w Hout.
    unfold GitFsBackend_readAsset, GitFsBackend_readBinaryAsset.
    destruct (ensureRepository gw config context w) as [[p|e] w0] eqn:E.
    + pose proof (ensureRepository_ret gw config context w p w0 E) as G.
      rewrite (guard_rejects_outside _ _ _ (Hout p G)). split; reflexivity.
    + destruct (ensureRepository_throw gw config context w e w0 E) as [props ->].
      split; reflexivity.
  - intros rootPath key rf w w1 props Hr. unfold NodeFsBackend_readAsset.
    destruct (traversal_rejected _ _); [reflexivity|]. rewrite Hr. reflexivity.
Qed.

Definition alice_git_config : git_config :=
  {| repoUrl := "https://example.com/org/assets.git"; cachePath := JStr ".a3t-git-cache";
     scope := JStr "user"; credentials := JObj [] |}.

(** A repository world that serves every file, [/etc/passwd] included. *)
Definition open_git_world : git_world (W := unit) :=
  {| repo_fresh := fun _ w => (true, w);
     repo_sync := fun _ w => (Ret JUndefined, w);
     git_readFile := fun _ w => (Ret (JStr "root:x:0:0"), w);
     git_readFileBinary := fun _ w => (Ret (JStr "root:x:0:0"), w) |}.

Definition serve_all (_ : string) (w : unit) : outcome jsval * unit := (Ret (JStr "root:x:0:0"), w).

Lemma reads_reject_traversal_witness :
  inside "/app" "assets" (path_join ["assets"; "../../etc/passwd"]) = false /\
  NodeFsBackend_readAsset "/app" "assets" serve_all "../../etc/passwd" tt = (Ret JNull, tt) /\
  NodeFsBackend_readBinaryAsset "/app" "assets" serve_all "../../etc/passwd" tt = (Ret JNull, tt) /\
  fst (GitFsBackend_readAsset open_git_world "/app" alice_git_config [("user", JStr "alice")]
         "../../etc/passwd" tt) = Ret JNull /\
  fst (GitFsBackend_readBinaryAsset open_git_world "/app" alice_git_config
         [("user", JStr "alice")] "../../etc/passwd" tt) = Ret JNull /\
  fst (NodeFsBackend_readAsset "/app" "assets" (fun _ w => (Throw (Error "ENOENT"), w))
         "missing.txt" tt) = Ret JNull.
Proof.
  destruct (reads_reject_traversal (W := unit) "/app") as [N [G F]].
  assert (Hn : inside "/app" "assets" (path_join ["assets"; "../../etc/passwd"]) = false)
    by (vm_compute; reflexivity).
  split; [exact Hn|].
  destruct (N "assets" "../../etc/passwd" serve_all serve_all tt Hn) as [N1 N2].
  split; [exact N1|]. split; [exact N2|].
  destruct (G open_git_world alice_git_config [("user", JStr "alice")] "../../etc/passwd" tt)
    as [G1 G2].
  { intros p Hp. vm_compute in Hp. injection Hp as <-. vm_compute. reflexivity. }
  split; [exact G1|]. split; [exact G2|].
  apply (F "assets" "missing.txt" _ tt tt [("message", JStr "ENOENT")]). reflexivity.
Defined.

(** ** Credentials *)






(** ** The local repository path *)

Fixpoint all_chars (f : ascii -> bool) (s : string) : bool :=
  match s with
  | EmptyString => true
  | String c r => f c && all_chars f r
  end.

Definition starts_dash (s : string) : bool :=
  match s with String c _ => Ascii.eqb c "-" | EmptyString => false end.

Fixpoint ends_dash (s : string) : bool :=
  match s with
  | EmptyString => false
  | String c EmptyString => Ascii.eqb c "-"
  | String _ r => ends_dash r
  end.

(** No two consecutive dashes. *)
Fixpoint no_dash_run (s : string) : bool :=
  match s with
  | String c r => negb (Ascii.eqb c "-" && starts_dash r) && no_dash_run r
  | EmptyString => true
  end.

Lemma replace_disallowed_chars (s : string) : all_chars repo_char (replace_disallowed s) = true.
Proof.
  induction s as [|c r IH]; simpl; [reflexivity|].
  rewrite IH, andb_true_r. destruct (repo_char c) eqn:E; [exact E|reflexivity].
Qed.

Lemma collapse_dashes_chars (b : bool) (s : string) :
  all_chars repo_char s = true -> all_chars repo_char (collapse_dashes b s) = true.
Proof.
  revert b. induction s as [|c r IH]; intros b H; simpl; [reflexivity|].
  simpl in H. apply andb_prop in H as [Hc Hr].
  destruct (Ascii.eqb c "-"); [destruct b|]; simpl; rewrite ?Hc, ?IH; auto.
Qed.

Lemma collapse_dashes_runs (s : string) : forall b,
  no_dash_run (collapse_dashes b s) = true /\
  (b = true -> starts_dash (collapse_dashes b s) = false).
Proof.
  induction s as [|c r IH]; intros b; simpl; [split; reflexivity|].
  destruct (Ascii.eqb c "-") eqn:E.
  - destruct b.
    + exact (IH true).
    + destruct (IH true) as [H1 H2]. simpl. rewrite H2, H1 by reflexivity.
      split; [reflexivity|discriminate].
  - destruct (IH false) as [H1 _]. simpl. rewrite E, H1. split; reflexivity.
Qed.

Lemma drop_trailing_dash_chars (s : string) :
  all_chars repo_char s = true -> all_chars repo_char (drop_trailing_dash s) = true.
Proof.
  induction s as [|c r IH]; [reflexivity|]. intros H. simpl in H.
  apply andb_prop in H as [Hc Hr]. destruct r as [|d r'].
  - simpl. destruct (Ascii.eqb c "-"); simpl; rewrite ?Hc; reflexivity.
  - change (all_chars repo_char (String c (drop_trailing_dash (String d r'))) = true).
    cbn [all_chars]. rewrite Hc, IH; auto.
Qed.

Lemma drop_trailing_dash_runs (s : string) :
  no_dash_run s = true ->
  no_dash_run (drop_trailing_dash s) = true /\
  (starts_dash (drop_trailing_dash s) = true -> starts_dash s = true) /\
  ends_dash (drop_trailing_dash s) = false.
Proof.
  induction s as [|c r IH]; [intros _; split; [|split]; auto|].
  intros H. destruct r as [|d r'].
  - simpl. destruct (Ascii.eqb c "-") eqn:E; simpl.
    + split; [|split]; auto.
    + rewrite E. split; [|split]; auto.
  - change (drop_trailing_dash (String c (String d r')))
      with (String c (drop_trailing_dash (String d r'))).
    simpl in H. apply andb_prop in H as [Hcd Hr].
    destruct (IH Hr) as [I1 [I2 I3]].
    destruct (drop_trailing_dash (String d r')) as [|e t] eqn:D.
    + split; [simpl; rewrite andb_false_r; reflexivity|]. split; [auto|]. simpl.
      (* [String d r'] was a lone dash *)
      destruct r' as [|x r''].
      * simpl in D. destruct (Ascii.eqb d "-") eqn:Ed; [|discriminate D].
        simpl in Hcd. rewrite ?Ed, andb_true_r in Hcd. apply negb_true_iff in Hcd. exact Hcd.
      * change (String d (drop_trailing_dash (String x r'')) = EmptyString) in D. discriminate D.
    + split; [|split].
      * change (negb (Ascii.eqb c "-" && starts_dash (String e t)) && no_dash_run (String e t)
                = true).
        rewrite I1, andb_true_r.
        apply negb_true_iff. apply andb_false_iff.
        destruct (Ascii.eqb c "-"); [right|left; reflexivity].
        simpl in Hcd. apply negb_true_iff in Hcd.
        destruct (Ascii.eqb d "-") eqn:Ed; [discriminate Hcd|].
        destruct (starts_dash (String e t)) eqn:Se; [|reflexivity].
        specialize (I2 eq_refl). simpl in I2. congruence.
      * simpl. auto.
      * exact I3.
Qed.

(** The repository name keeps only [[A-Za-z0-9_-]], has no two dashes
    in a row and neither starts nor ends with a dash. *)
Lemma sanitize_repo_name_shape (url : string) :
  let n := sanitize_repo_name url in
  all_chars repo_char n = true /\ no_dash_run n = true /\
  starts_dash n = false /\ ends_dash n = false.
Proof.
  cbv zeta. unfold sanitize_repo_name, trim_dashes.
  pose proof (collapse_dashes_chars false _ (replace_disallowed_chars url)) as C.
  destruct (collapse_dashes_runs (replace_disallowed url) false) as [R _].
  set (t := collapse_dashes false (replace_disallowed url)) in *.
  assert (S : exists s1, s1 = match t with
                              | String c r => if Ascii.eqb c "-" then r else t
                              | EmptyString => t
                              end /\
                         all_chars repo_char s1 = true /\ no_dash_run s1 = true /\
                         starts_dash s1 = false).
  { destruct t as [|c r]; [exists EmptyString; auto|].
    simpl in C, R. apply andb_prop in C as [Ch Cr]. apply andb_prop in R as [Rh Rr].
    destruct (Ascii.eqb c "-") eqn:E.
    - exists r. split; [reflexivity|]. split; [exact Cr|]. split; [exact Rr|].
      simpl in Rh. destruct (starts_dash r); [discriminate Rh|reflexivity].
    - exists (String c r). split; [reflexivity|].
      split; [cbn [all_chars]; rewrite Ch, Cr; reflexivity|].
      split; [cbn [no_dash_run]; rewrite E, Rr; reflexivity|].
      exact E. }
  destruct S as [s1 [E1 [Sc [Sr Ss]]]]. rewrite <- E1.
  destruct (drop_trailing_dash_runs s1 Sr) as [D1 [D2 D3]].
  split; [apply drop_trailing_dash_chars; exact Sc|]. split; [exact D1|].
  split; [|exact D3].
  destruct (starts_dash (drop_trailing_dash s1)) eqn:E; [|reflexivity].
  rewrite (D2 eq_refl) in Ss. discriminate.
Qed.

(** A path segment that [normalize] keeps as it is. *)
Definition normal_seg (x : string) : bool :=
  no_slash x && negb (String.eqb x EmptyString) && negb (String.eqb x ".") &&
  negb (String.eqb x "..").

Lemma split_slash_nonnil (s : string) : split_slash s <> [].
Proof.
  induction s as [|c r IH]; simpl; [discriminate|].
  destruct (Ascii.eqb c "/"); [discriminate|]. destruct (split_slash r); discriminate.
Qed.

Lemma split_slash_app (x y : string) :
  split_slash (x ++ String "/" y) = (split_slash x ++ split_slash y)%list.
Proof.
  induction x as [|c x IH]; [reflexivity|].
  rewrite sapp_cons. cbn [split_slash]. rewrite IH.
  destruct (Ascii.eqb c "/"); [reflexivity|].
  destruct (split_slash x) as [|z l] eqn:E; [exfalso; exact (split_slash_nonnil x E)|].
  reflexivity.
Qed.

Lemma split_slash_single (x : string) : no_slash x = true -> split_slash x = [x].
Proof.
  induction x as [|c x IH]; [reflexivity|]. simpl. intros H.
  apply andb_prop in H as [Hc Hx]. apply negb_true_iff in Hc. rewrite Hc, (IH Hx).
  reflexivity.
Qed.

Lemma normalize_segs_app (a : bool) (st l1 l2 : list string) :
  normalize_segs a st (l1 ++ l2) = normalize_segs a (normalize_segs a st l1) l2.
Proof.
  revert st. induction l1 as [|x l1 IH]; intros st; [reflexivity|]. cbn [app normalize_segs].
  destruct (String.eqb x EmptyString || String.eqb x "."); [apply IH|].
  destruct (String.eqb x ".."); [|apply IH].
  destruct st as [|y st]; [destruct a; apply IH|].
  destruct (negb (String.eqb y "..")); [apply IH|]. destruct a; apply IH.
Qed.

Lemma normalize_segs_normal (a : bool) (st : list string) (x : string) :
  normal_seg x = true -> normalize_segs a st [x] = x :: st.
Proof.
  unfold normal_seg. intros H.
  apply andb_prop in H as [H H3]. apply andb_prop in H as [H H2].
  apply andb_prop in H as [_ H1].
  apply negb_true_iff in H1, H2, H3. simpl. rewrite H1, H2, H3. reflexivity.
Qed.

Lemma normal_seg_no_slash (x : string) : normal_seg x = true -> no_slash x = true.
Proof. unfold normal_seg. intros H. repeat (apply andb_prop in H as [H _]). exact H. Qed.

Lemma normal_seg_nonempty (x : string) : normal_seg x = true -> x <> EmptyString.
Proof. intros H ->. discriminate H. Qed.

Lemma is_abs_app (x y : string) : x <> EmptyString -> is_abs (x ++ y) = is_abs x.
Proof. destruct x; [congruence|reflexivity]. Qed.

Lemma ends_with_slash_app (x y : string) :
  y <> EmptyString -> ends_with_slash (x ++ y) = ends_with_slash y.
Proof.
  intros Hy. induction x as [|c x IH]; [reflexivity|]. rewrite sapp_cons.
  change (ends_with_slash (String c (x ++ y)))
    with (match x ++ y with
          | EmptyString => Ascii.eqb c "/"
          | _ => ends_with_slash (x ++ y)
          end).
  destruct (x ++ y) eqn:E; [|exact IH].
  destruct x; [simpl in E; congruence|discriminate].
Qed.

Lemma ends_with_slash_no_slash (x : string) : no_slash x = true -> ends_with_slash x = false.
Proof.
  induction x as [|c x IH]; [reflexivity|]. simpl. intros H.
  apply andb_prop in H as [Hc Hx]. apply negb_true_iff in Hc.
  destruct x; [exact Hc|exact (IH Hx)].
Qed.

(** The end of [path.normalize]: the kept segments written out. *)
Definition render (isAbsolute : bool) (st : list string) : string :=
  let q := join_segs (rev st) in
  if String.eqb q EmptyString then (if isAbsolute then "/" else ".")
  else if isAbsolute then "/" ++ q else q.

Definition norm_stack (p : string) : list string :=
  normalize_segs (negb (is_abs p)) [] (split_slash p).

Lemma path_normalize_render (p : string) :
  p <> EmptyString -> ends_with_slash p = false ->
  path_normalize p = render (is_abs p) (norm_stack p).
Proof.
  intros Hp He. unfold path_normalize, render, norm_stack.
  apply String.eqb_neq in Hp. rewrite Hp, He. cbv zeta.
  destruct (String.eqb _ EmptyString); reflexivity.
Qed.

Lemma seg_tail_snoc (l : list string) (x : string) :
  seg_tail (l ++ [x]) = seg_tail l ++ String "/" x.
Proof.
  induction l as [|y l IH]; cbn [app seg_tail]; [rewrite sapp_nil_r; reflexivity|]. rewrite IH.
  rewrite sapp_cons, sapp_assoc. reflexivity.
Qed.

Lemma join_segs_snoc (l : list string) (y x : string) :
  join_segs ((y :: l) ++ [x]) = join_segs (y :: l) ++ String "/" x.
Proof.
  change (y ++ seg_tail (l ++ [x]) = (y ++ seg_tail l) ++ String "/" x).
  rewrite seg_tail_snoc, sapp_assoc. reflexivity.
Qed.

Lemma join_segs_snoc_nonempty (l : list string) (x : string) :
  x <> EmptyString -> join_segs (l ++ [x]) <> EmptyString.
Proof.
  intros Hx. destruct l as [|y l]; [simpl; rewrite sapp_nil_r; exact Hx|].
  rewrite join_segs_snoc. destruct (join_segs (y :: l)); discriminate.
Qed.

Lemma render_push (isAbsolute : bool) (x y : string) (st : list string) :
  x <> EmptyString -> y <> EmptyString ->
  render isAbsolute (y :: x :: st) = render isAbsolute (x :: st) ++ String "/" y.
Proof.
  intros Hx Hy. unfold render.
  change (rev (y :: x :: st)) with ((rev st ++ [x]) ++ [y])%list.
  change (rev (x :: st)) with (rev st ++ [x])%list.
  pose proof (join_segs_snoc_nonempty (rev st) x Hx) as N1.
  destruct (rev st ++ [x])%list as [|z l] eqn:E.
  { destruct (rev st); discriminate E. }
  rewrite join_segs_snoc.
  destruct (String.eqb (join_segs (z :: l)) EmptyString) eqn:Q;
    [apply String.eqb_eq in Q; contradiction|].
  replace (String.eqb (join_segs (z :: l) ++ String "/" y) EmptyString) with false
    by (destruct (join_segs (z :: l)); reflexivity).
  destruct isAbsolute; [|reflexivity]. rewrite !sapp_cons. reflexivity.
Qed.

Lemma norm_stack_extend (p x : string) :
  p <> EmptyString -> normal_seg x = true ->
  norm_stack (p ++ String "/" x) = x :: norm_stack p.
Proof.
  intros Hp Hx. unfold norm_stack.
  rewrite is_abs_app by exact Hp. rewrite split_slash_app.
  rewrite (split_slash_single x (normal_seg_no_slash x Hx)).
  rewrite normalize_segs_app. apply normalize_segs_normal. exact Hx.
Qed.

(** Appending a normal segment to a path whose last kept segment is not
    empty appends it to the normalized path. *)
Lemma path_normalize_extend (p x : string) (y : string) (st : list string) :
  p <> EmptyString -> ends_with_slash p = false -> normal_seg x = true ->
  norm_stack p = y :: st -> y <> EmptyString ->
  path_normalize (p ++ String "/" x) = path_normalize p ++ String "/" x.
Proof.
  intros Hp He Hx Hs Hy.
  assert (Hpx : p ++ String "/" x <> EmptyString) by (destruct p; [congruence|discriminate]).
  assert (Hex : ends_with_slash (p ++ String "/" x) = false).
  { rewrite ends_with_slash_app by discriminate. simpl.
    destruct x as [|c x']; [discriminate Hx|].
    exact (ends_with_slash_no_slash _ (normal_seg_no_slash _ Hx)). }
  rewrite (path_normalize_render _ Hpx Hex), (path_normalize_render _ Hp He).
  rewrite is_abs_app by exact Hp. rewrite norm_stack_extend by assumption. rewrite Hs.
  apply render_push; [exact Hy|exact (normal_seg_nonempty x Hx)].
Qed.

Definition slash_tail (r : string) : string :=
  if String.eqb r EmptyString then EmptyString else String "/" r.

Lemma path_normalize_tail (p u r s : string) (st : list string) :
  p <> EmptyString -> ends_with_slash p = false -> norm_stack p = s :: st -> s <> EmptyString ->
  normal_seg u = true -> (r = EmptyString \/ normal_seg r = true) ->
  path_normalize (p ++ String "/" (u ++ slash_tail r))
  = path_normalize p ++ String "/" (u ++ slash_tail r).
Proof.
  intros Hp He Hst Hs Hu Hr. unfold slash_tail.
  destruct (String.eqb r EmptyString) eqn:Er.
  - rewrite sapp_nil_r. apply path_normalize_extend with (y := s) (st := st); assumption.
  - destruct Hr as [->|Hr]; [discriminate Er|].
    replace (p ++ String "/" (u ++ String "/" r)) with ((p ++ String "/" u) ++ String "/" r)
      by (rewrite sapp_assoc, sapp_cons; reflexivity).
    assert (Hpu : p ++ String "/" u <> EmptyString) by (destruct p; [congruence|discriminate]).
    assert (Heu : ends_with_slash (p ++ String "/" u) = false).
    { rewrite ends_with_slash_app by discriminate.
      destruct u as [|c u']; [discriminate Hu|].
      exact (ends_with_slash_no_slash _ (normal_seg_no_slash _ Hu)). }
    rewrite (path_normalize_extend (p ++ String "/" u) r u (s :: st) Hpu Heu Hr).
    + rewrite (path_normalize_extend p u s st Hp He Hu Hst Hs).
      rewrite sapp_assoc, sapp_cons. reflexivity.
    + rewrite norm_stack_extend by assumption. rewrite Hst. reflexivity.
    + exact (normal_seg_nonempty u Hu).
Qed.

Definition nonempty_arg (a : string) : bool := negb (String.eqb a EmptyString).

Lemma join_args_2 (c s : string) :
  String.eqb s EmptyString = false ->
  join_segs (List.filter nonempty_arg [c; s])
  = if String.eqb c EmptyString then s else c ++ String "/" s.
Proof.
  intros Es. unfold nonempty_arg. cbn [List.filter]. rewrite Es.
  destruct (String.eqb c EmptyString); cbn [negb join_segs seg_tail]; rewrite ?sapp_nil_r;
    reflexivity.
Qed.

Lemma join_args_4 (c s u r : string) :
  String.eqb s EmptyString = false -> String.eqb u EmptyString = false ->
  join_segs (List.filter nonempty_arg [c; s; u; r])
  = (if String.eqb c EmptyString then s else c ++ String "/" s) ++ String "/" (u ++ slash_tail r).
Proof.
  intros Es Eu. unfold nonempty_arg, slash_tail. cbn [List.filter]. rewrite Es, Eu.
  destruct (String.eqb c EmptyString), (String.eqb r EmptyString);
    cbn [negb join_segs seg_tail]; rewrite ?sapp_nil_r, ?sapp_assoc, ?sapp_cons; reflexivity.
Qed.

(** [path.join(c, s, u, r)] is [path.join(c, s)] followed by ["/u"] and,
    when [r] is not empty, ["/r"]. *)
Lemma path_join_layout (c s u r : string) :
  normal_seg s = true -> normal_seg u = true -> (r = EmptyString \/ normal_seg r = true) ->
  path_join [c; s; u; r] = path_join [c; s] ++ String "/" (u ++ slash_tail r).
Proof.
  intros Hs Hu Hr.
  assert (Es : String.eqb s EmptyString = false)
    by (apply String.eqb_neq, normal_seg_nonempty, Hs).
  assert (Eu : String.eqb u EmptyString = false)
    by (apply String.eqb_neq, normal_seg_nonempty, Hu).
  unfold path_join. fold nonempty_arg.
  rewrite (join_args_2 c s Es), (join_args_4 c s u r Es Eu).
  assert (HP : let p := if String.eqb c EmptyString then s else c ++ String "/" s in
               p <> EmptyString /\ ends_with_slash p = false /\
               exists st, norm_stack p = s :: st).
  { destruct (String.eqb c EmptyString) eqn:Ec; cbv zeta.
    - split; [exact (normal_seg_nonempty s Hs)|].
      split; [exact (ends_with_slash_no_slash s (normal_seg_no_slash s Hs))|].
      exists []. unfold norm_stack. rewrite (split_slash_single s (normal_seg_no_slash s Hs)).
      apply normalize_segs_normal. exact Hs.
    - apply String.eqb_neq in Ec.
      split; [destruct c; [congruence|discriminate]|]. split.
      + rewrite ends_with_slash_app by discriminate.
        destruct s as [|a s']; [discriminate Hs|].
        exact (ends_with_slash_no_slash _ (normal_seg_no_slash _ Hs)).
      + exists (norm_stack c). apply norm_stack_extend; assumption. }
  cbv zeta in HP.
  destruct (if String.eqb c EmptyString then s else c ++ String "/" s) as [|x p'] eqn:P.
  { destruct HP as [HP _]. congruence. }
  destruct HP as [HP1 [HP2 [st HP3]]].
  cbn [String.eqb String.append].
  exact (path_normalize_tail (String x p') u r s st HP1 HP2 HP3 (normal_seg_nonempty s Hs) Hu Hr).
Qed.

Lemma repo_char_not (c : ascii) (d : ascii) :
  repo_char d = false -> repo_char c = true -> c <> d.
Proof. intros Hd Hc ->. congruence. Qed.

Lemma all_chars_no_slash (r : string) : all_chars repo_char r = true -> no_slash r = true.
Proof.
  induction r as [|c r IH]; [reflexivity|]. simpl. intros H. apply andb_prop in H as [Hc Hr].
  rewrite (IH Hr), andb_true_r. apply negb_true_iff.
  destruct (Ascii.eqb c "/") eqn:E; [|reflexivity].
  apply Ascii.eqb_eq in E. exfalso. exact (repo_char_not c "/" eq_refl Hc E).
Qed.

(** The repository name never is ["."] or [".."]: it is empty or a
    normal segment. *)
Lemma repo_name_segment (r : string) :
  all_chars repo_char r = true -> r = EmptyString \/ normal_seg r = true.
Proof.
  intros H. destruct r as [|c r']; [left; reflexivity|right].
  pose proof (all_chars_no_slash _ H) as Hn.
  simpl in H. apply andb_prop in H as [Hc _].
  destruct (String.eqb (String c r') ".") eqn:E1.
  { apply String.eqb_eq in E1. injection E1 as -> _. discriminate Hc. }
  destruct (String.eqb (String c r') "..") eqn:E2.
  { apply String.eqb_eq in E2. injection E2 as -> _. discriminate Hc. }
  unfold normal_seg. rewrite Hn, E1, E2. reflexivity.
Qed.

Lemma sapp_cancel_l (p a b : string) : p ++ a = p ++ b -> a = b.
Proof. induction p as [|c p IH]; [auto|]. rewrite !sapp_cons. intros H. injection H. auto. Qed.

Lemma slash_tail_shape (r : string) :
  slash_tail r = EmptyString \/ starts_slash (slash_tail r).
Proof.
  unfold slash_tail. destruct (String.eqb r EmptyString); [left|right; eexists]; reflexivity.
Qed.

(** [C8], the claim as worded: the repository name does not strip the
    characters outside [[A-Za-z0-9_-]]; it turns each into a dash. *)
Lemma sanitize_repo_name_replaces :
  sanitize_repo_name "a.b" = "a-b" /\ "a-b" <> "ab" /\
  getLocalRepoPath alice_git_config [("user", JStr "alice")]
  = Ret ".a3t-git-cache/user/alice/https-example-com-org-assets-git".
Proof. split; [reflexivity|]. split; [discriminate|reflexivity]. Qed.

(** [C8], as amended: with [cachePath] c and [scope] s, the path is
    path.join(c, s, id, repoName), where id is the context's [user]
    field when s is ["user"] and its [workspace] field otherwise, or
    ["default-user"] / ["default-workspace"] when that field is falsy;
    repoName is the URL with every character outside [[A-Za-z0-9_-]]
    replaced by a dash, runs of dashes collapsed and a leading and a
    trailing dash removed, so that it keeps only those characters, has
    no two dashes in a row and neither starts nor ends with a dash. Two
    contexts with different identifiers that are plain path segments
    (such as alice and bob) get different paths, each the same prefix
    followed by ["/"] and the identifier. *)
Theorem getLocalRepoPath_layout (config : git_config) (c s : string) :
  cachePath config = JStr c -> scope config = JStr s ->
  let field := if String.eqb s "user" then "user" else "workspace" in
  let fallback := if String.eqb s "user" then "default-user" else "default-workspace" in
  let repoName := sanitize_repo_name (repoUrl config) in
  (forall context id, get context field = JStr id -> id <> EmptyString ->
     getLocalRepoPath config context = Ret (path_join [c; s; id; repoName])) /\
  (forall context, truthy (get context field) = false ->
     getLocalRepoPath config context = Ret (path_join [c; s; fallback; repoName])) /\
  (all_chars repo_char repoName = true /\ no_dash_run repoName = true /\
   starts_dash repoName = false /\ ends_dash repoName = false) /\
  (normal_seg s = true ->
   forall context1 context2 id1 id2,
     get context1 field = JStr id1 -> get context2 field = JStr id2 ->
     normal_seg id1 = true -> normal_seg id2 = true -> id1 <> id2 ->
     exists path1 path2 prefix suffix,
       getLocalRepoPath config context1 = Ret path1 /\
       getLocalRepoPath config context2 = Ret path2 /\
       path1 = prefix ++ String "/" (id1 ++ suffix) /\
       path2 = prefix ++ String "/" (id2 ++ suffix) /\
       path1 <> path2).
Proof.
  intros Hc Hs field fallback repoName.
  assert (Hid : forall context id, get context field = JStr id -> id <> EmptyString ->
            getLocalRepoPath config context = Ret (path_join [c; s; id; repoName])).
  { intros context id Hg Hne. unfold getLocalRepoPath. rewrite Hc, Hs. cbn [jsval_eqb].
    unfold field in Hg. apply String.eqb_neq in Hne.
    destruct (String.eqb s "user"); rewrite Hg; simpl truthy; rewrite Hne; reflexivity. }
  destruct (sanitize_repo_name_shape (repoUrl config)) as [N1 [N2 [N3 N4]]].
  split; [exact Hid|]. split.
  - intros context Hf. unfold getLocalRepoPath. rewrite Hc, Hs. cbn [jsval_eqb].
    unfold field, fallback in *.
    destruct (String.eqb s "user"); rewrite Hf; reflexivity.
  - split; [auto|]. intros Hsn context1 context2 id1 id2 H1 H2 Hn1 Hn2 Hne.
    pose proof (repo_name_segment repoName N1) as Hr.
    exists (path_join [c; s; id1; repoName]), (path_join [c; s; id2; repoName]),
           (path_join [c; s]), (slash_tail repoName).
    split; [apply (Hid context1 id1 H1 (normal_seg_nonempty _ Hn1))|].
    split; [apply (Hid context2 id2 H2 (normal_seg_nonempty _ Hn2))|].
    rewrite !path_join_layout by assumption.
    split; [reflexivity|]. split; [reflexivity|].
    intros E. apply sapp_cancel_l in E. injection E as E.
    destruct (app_split id1 id2 (slash_tail repoName) (slash_tail repoName)
                (normal_seg_no_slash _ Hn1) (normal_seg_no_slash _ Hn2)
                (slash_tail_shape _) (slash_tail_shape _) E) as [E' _].
    exact (Hne E').
Qed.

Lemma getLocalRepoPath_layout_witness :
  getLocalRepoPath alice_git_config [("user", JStr "alice")]
  <> getLocalRepoPath alice_git_config [("user", JStr "bob")] /\
  getLocalRepoPath alice_git_config [("user", JNull)]
  = Ret (path_join [".a3t-git-cache"; "user"; "default-user";
                    sanitize_repo_name (repoUrl alice_git_config)]).
Proof.
  destruct (getLocalRepoPath_layout alice_git_config ".a3t-git-cache" "user" eq_refl eq_refl)
    as [_ [P2 [_ P4]]].
  split.
  - destruct (P4 eq_refl [("user", JStr "alice")] [("user", JStr "bob")] "alice" "bob"
                eq_refl eq_refl eq_refl eq_refl ltac:(discriminate))
      as [p1 [p2 [pre [suf [E1 [E2 [_ [_ Hne]]]]]]]].
    rewrite E1, E2. congruence.
  - apply P2. reflexivity.
Defined.

(* ------------------------------------------------------------------ *)
(** ** More of the resolver: what one call changes, and repeated calls *)

(** [X1]: a [resolveAsset] call never changes the global context, and of
    the cache it changes at most the entry of its own cache key. *)
Theorem resolveAsset_footprint {W} (db : option (db_backend W)) (fsb : fs_backend W)
    (key : string) (d : jsval) (o : jsobj) (binary : bool) (s : a3t_state W) :
  let s' := snd (resolveAsset db fsb key d o binary s) in
  globalContext s' = globalContext s /\
  forall k, k <> getCacheKey (globalContext s) key o -> cache s' !! k = cache s !! k.
Proof.
  cbv zeta. unfold resolveAsset, getCached.
  destruct (cache s !! getCacheKey (globalContext s) key o) as [c|]; [auto|].
  destruct (resolve_try db fsb (globalContext s) key d o binary (world s))
    as [[[f v]|err] w1].
  - simpl. split; [reflexivity|]. intros k Hk. apply lookup_insert_ne. congruence.
  - destruct (read_prop err "message"); [|simpl; auto].
    destruct (negb (is_undefined d)); simpl;
      (split; [reflexivity|]); intros k Hk; apply lookup_insert_ne; congruence.
Qed.

(** [X2]: once [get(key, d, o)] has answered [v], a later [get] or
    [getBinary] of the same key, default and override (with any
    backends) answers [v] again, from the cache, and changes nothing:
    text and binary reads share one cache entry. *)
Theorem get_then_getBinary {W} (db db' : option (db_backend W)) (fsb fsb' : fs_backend W)
    (key : string) (d : jsval) (o : jsobj) (s : a3t_state W) :
  let (r, s1) := a3t_get db fsb key d o s in
  getBinary db' fsb' key d o s1 = (r, s1) /\ a3t_get db' fsb' key d o s1 = (r, s1).
Proof.
  unfold a3t_get, getBinary.
  destruct (resolveAsset_commits db fsb key d o false s) as [v [s' [e [R [G [L V]]]]]].
  rewrite R. unfold resolveAsset at 1 2, getCached. rewrite G, L, V. auto.
Qed.

(* ------------------------------------------------------------------ *)
(** ** [MongoDbBackend] under [queryDatabase] *)

(** [X3]: with the MongoDB backend, [queryDatabase] never throws, whatever
    [findOne] does (even a rejection with [undefined], which [findAsset]
    turns into a TypeError that the loop then skips). *)
Theorem queryDatabase_mongo_never_throws {W}
    (findOne : jsobj -> W -> outcome (option jsobj) * W) (queries : list jsobj) (w : W) :
  exists v w', queryDatabase (Some (MongoDbBackend_findAsset findOne)) queries w = (Ret v, w').
Proof.
  cbn [queryDatabase]. revert w. induction queries as [|q rest IH]; intros w; [eauto|].
  cbn [query_loop]. unfold MongoDbBackend_findAsset.
  destruct (findOne q w) as [[[doc|]|error] w1].
  - destruct (negb (nullish (get doc "value"))); eauto.
  - apply IH.
  - destruct error; apply IH.
Qed.

(** Whether the document [collection] holds for [q] has a set [value]. *)
Definition mongo_hit (collection : jsobj -> option jsobj) (q : jsobj) : bool :=
  match collection q with
  | Some doc => negb (nullish (get doc "value"))
  | None => false
  end.

(** [X4]: over a collection that answers each query without failing,
    [queryDatabase] with the MongoDB backend returns the [value] of the
    first query whose document exists and has a [value] that is neither
    null nor undefined, and [null] when there is none: a matching
    document without a [value] counts as no result. *)
Theorem queryDatabase_mongo_first {W} (collection : jsobj -> option jsobj)
    (queries : list jsobj) (w : W) :
  queryDatabase (Some (MongoDbBackend_findAsset (fun q w => (Ret (collection q), w))))
    queries w
  = (Ret (match List.find (mongo_hit collection) queries with
          | Some q => match collection q with Some doc => get doc "value" | None => JNull end
          | None => JNull
          end), w).
Proof.
  cbn [queryDatabase]. induction queries as [|q rest IH]; [reflexivity|].
  assert (S : MongoDbBackend_findAsset (fun q w => (Ret (collection q), w)) q w
              = (Ret (match collection q with Some doc => get doc "value" | None => JNull end), w))
    by (unfold MongoDbBackend_findAsset; destruct (collection q); reflexivity).
  cbn [query_loop List.find]. rewrite S.
  destruct (mongo_hit collection q) eqn:H; unfold mongo_hit in H;
    destruct (collection q) as [doc|]; try discriminate H.
  - rewrite H. reflexivity.
  - rewrite H. exact IH.
  - exact IH.
Qed.

(* ------------------------------------------------------------------ *)
(** ** [NodeFsBackend] on the root directory *)

(** [X5]: a [NodeFsBackend] whose root resolves to ["/"] answers [null]
    for every key whose resolved path is not ["/"] itself, without
    reading: the guard compares with ["//"], which no resolved path
    starts with. *)
Theorem NodeFsBackend_root_rejects_all {W} (cwd rootPath key : string)
    (readFile readFileBinary : string -> W -> outcome jsval * W) (w : W) :
  path_resolve cwd rootPath = "/" ->
  path_resolve cwd (path_join [rootPath; key]) <> "/" ->
  NodeFsBackend_readAsset cwd rootPath readFile key w = (Ret JNull, w) /\
  NodeFsBackend_readBinaryAsset cwd rootPath readFileBinary key w = (Ret JNull, w).
Proof.
  intros Hroot Hp.
  assert (T : traversal_rejected (path_resolve cwd (path_join [rootPath; key]))
                (path_resolve cwd rootPath) = true).
  { rewrite Hroot. unfold traversal_rejected, startsWith, sep.
    apply String.eqb_neq in Hp. rewrite Hp, andb_true_r.
    pose proof (resolve_segs_ok cwd (path_join [rootPath; key])) as Hok.
    unfold path_resolve in *.
    destruct (resolve_segs cwd (path_join [rootPath; key])) as [|y b].
    - exfalso. apply String.eqb_neq in Hp. exact (Hp eq_refl).
    - inversion Hok as [|? ? [Hy Hne] _]; subst.
      destruct y as [|c y']; [congruence|].
      cbn [join_segs]. rewrite sapp_cons, sapp_cons, sapp_nil_l.
      change ("/" ++ sep) with (String "/" (String "/" EmptyString)).
      rewrite prefix_cons. destruct (ascii_dec "/" "/") as [_|n]; [|congruence].
      rewrite sapp_nil_l, sapp_cons, prefix_cons. destruct (ascii_dec "/" c) as [<-|_]; [|reflexivity].
      simpl in Hy. discriminate Hy. }
  unfold NodeFsBackend_readAsset, NodeFsBackend_readBinaryAsset. rewrite T. auto.
Qed.

Lemma NodeFsBackend_root_rejects_all_witness :
  path_resolve "/srv/app" "/" = "/" /\
  path_resolve "/srv/app" (path_join ["/"; "etc/hosts"]) <> "/" /\
  NodeFsBackend_readAsset (W := unit) "/srv/app" "/" serve_all "etc/hosts" tt = (Ret JNull, tt).
Proof.
  split; [reflexivity|]. split; [discriminate|].
  apply (NodeFsBackend_root_rejects_all "/srv/app" "/" "etc/hosts" serve_all serve_all tt);
    [reflexivity|discriminate].
Defined.

(* ------------------------------------------------------------------ *)
(** ** The secret store *)

(** What the default provider finds for [key]: the environment variable,
    else a memory secret that is neither null nor undefined, else null. *)
Definition stored_secret (w : secret_world) (key : string) : jsval :=
  match env w (EnvironmentProvider_envKey "A3T_" key) with
  | Some v => JStr v
  | None =>
      match secrets w !! key with
      | Some v => if nullish v then JNull else v
      | None => JNull
      end
  end.

Lemma getSecret_defaultProvider (key : string) (w : secret_world) :
  getSecret defaultProvider key w = (Ret (stored_secret w key), w).
Proof.
  unfold getSecret, defaultProvider, stored_secret. cbn [CompositeProvider provider_getSecret
    CompositeProvider_getSecret EnvironmentProvider MemoryProvider provider_isAvailable].
  destruct (env w _); [reflexivity|].
  destruct (secrets w !! key) as [v|]; [|reflexivity]. destruct v; reflexivity.
Qed.

Lemma setSecret_defaultProvider (key : string) (value : jsval) (w : secret_world) :
  setSecret defaultProvider key value w
  = (Ret true, {| env := env w; secrets := <[key := value]> (secrets w) |}).
Proof. reflexivity. Qed.

(** [X6]: with the default providers, [getSecret(key)] answers the
    environment variable [A3T_<KEY>] when it is set, else the memory
    secret of [key] when it is neither null nor undefined, else [null];
    it never throws and changes nothing. *)
Theorem getSecret_precedence (key : string) (w : secret_world) :
  getSecret defaultProvider key w
  = (Ret (match env w (EnvironmentProvider_envKey "A3T_" key) with
          | Some v => JStr v
          | None =>
              match secrets w !! key with
              | Some v => if nullish v then JNull else v
              | None => JNull
              end
          end), w).
Proof. exact (getSecret_defaultProvider key w). Qed.

(** [X7]: with the default providers, [setSecret(key, value)] answers
    true and stores [value] in memory (the environment provider refuses
    to store); a later [getSecret(key)] answers [value] unless the
    environment variable of [key] is set (or [value] is null or
    undefined, which reads as [null]), and every other key reads as
    before. *)
Theorem setSecret_then_getSecret (key : string) (value : jsval) (w : secret_world) :
  let (r, w1) := setSecret defaultProvider key value w in
  r = Ret true /\
  (env w (EnvironmentProvider_envKey "A3T_" key) = None ->
   getSecret defaultProvider key w1 = (Ret (if nullish value then JNull else value), w1)) /\
  (forall key', key' <> key ->
   getSecret defaultProvider key' w1 = (fst (getSecret defaultProvider key' w), w1)).
Proof.
  rewrite setSecret_defaultProvider. split; [reflexivity|]. split.
  - intros He. rewrite getSecret_defaultProvider. unfold stored_secret. cbn [env secrets].
    rewrite He, lookup_insert_eq. destruct value; reflexivity.
  - intros key' Hk. rewrite !getSecret_defaultProvider. unfold stored_secret. cbn [env secrets fst].
    rewrite lookup_insert_ne by congruence. reflexivity.
Qed.

Definition no_env : secret_world := {| env := fun _ => None; secrets := ∅ |}.

Lemma setSecret_then_getSecret_witness :
  env no_env (EnvironmentProvider_envKey "A3T_" "git_token_x") = None /\
  getSecret defaultProvider "git_token_x" (snd (setSecret defaultProvider "git_token_x" (JStr "t") no_env))
  = (Ret (JStr "t"), snd (setSecret defaultProvider "git_token_x" (JStr "t") no_env)).
Proof.
  split; [reflexivity|].
  pose proof (setSecret_then_getSecret "git_token_x" (JStr "t") no_env) as H.
  destruct (setSecret defaultProvider "git_token_x" (JStr "t") no_env) as [r w1].
  exact (proj1 (proj2 H) eq_refl).
Defined.

(** [X8]: after [clearMemorySecrets()], [getSecret(key)] with the default
    providers answers the environment variable of [key] or [null]. *)
Theorem clearMemorySecrets_getSecret (key : string) (w : secret_world) :
  getSecret defaultProvider key (clearMemorySecrets w)
  = (Ret (match env w (EnvironmentProvider_envKey "A3T_" key) with
          | Some v => JStr v
          | None => JNull
          end), clearMemorySecrets w).
Proof.
  rewrite getSecret_defaultProvider. unfold stored_secret, clearMemorySecrets. cbn [env secrets].
  rewrite lookup_empty. reflexivity.
Qed.

Lemma CompositeProvider_getSecret_throw {W} (providers : list (secret_provider W))
    (key : string) (w w' : W) (e : exn) :
  CompositeProvider_getSecret providers key w = (Throw e, w') -> e = TypeError.
Proof.
  revert w. induction providers as [|p rest IH]; intros w; [discriminate|].
  cbn [CompositeProvider_getSecret]. cbv zeta.
  destruct (provider_isAvailable p w) as [[[]|err] w1].
  - destruct (provider_getSecret p key w1) as [[v|err] w2].
    + destruct (negb (jsval_eqb v JNull)); [discriminate|apply IH].
    + destruct err; [intros [= <- _]; reflexivity|apply IH].
  - apply IH.
  - destruct err; [intros [= <- _]; reflexivity|apply IH].
Qed.

Lemma CompositeProvider_setSecret_throw {W} (providers : list (secret_provider W))
    (key : string) (value : jsval) (w w' : W) (e : exn) :
  CompositeProvider_setSecret providers key value w = (Throw e, w') ->
  e = Error "No provider supports setting secrets".
Proof.
  revert w. induction providers as [|p rest IH]; intros w; [intros [= <- _]; reflexivity|].
  cbn [CompositeProvider_setSecret].
  destruct (provider_isAvailable p w) as [[[]|err] w1].
  - destruct (provider_setSecret p key value w1) as [[[]|err] w2]; [discriminate|apply IH].
  - apply IH.
  - apply IH.
Qed.

(** [X9]: whatever the providers of a [CompositeProvider] default do
    (throw, reject with [undefined], be unavailable), the module's
    [getSecret] and [setSecret] never throw: they answer a value (or
    [null]) and a boolean. *)
Theorem secret_store_never_throws {W} (providers : list (secret_provider W)) (key : string)
    (value : jsval) (w : W) :
  (exists v w', getSecret (CompositeProvider providers) key w = (Ret v, w')) /\
  (exists b w', setSecret (CompositeProvider providers) key value w = (Ret b, w')).
Proof.
  unfold getSecret, setSecret. cbn [CompositeProvider provider_getSecret provider_setSecret].
  split.
  - destruct (CompositeProvider_getSecret providers key w) as [[v|e] w1] eqn:E; [eauto|].
    apply CompositeProvider_getSecret_throw in E. subst e. simpl. eauto.
  - destruct (CompositeProvider_setSecret providers key value w) as [[[]|e] w1] eqn:E; [eauto|].
    apply CompositeProvider_setSecret_throw in E. subst e. simpl. eauto.
Qed.

(** ASCII case folding: ['A'..'Z'] to ['a'..'z']. *)
Definition ascii_lower (c : ascii) : ascii :=
  let n := nat_of_ascii c in
  if Nat.leb 65 n && Nat.leb n 90 then ascii_of_nat (n + 32) else c.

Fixpoint lower (s : string) : string :=
  match s with
  | EmptyString => EmptyString
  | String c r => String (ascii_lower c) (lower r)
  end.

Lemma env_name_char_lower (c : ascii) : env_name_char (ascii_lower c) = env_name_char c.
Proof. destruct c as [[] [] [] [] [] [] [] []]; reflexivity. Qed.

Lemma env_name_lower (s : string) : env_name (lower s) = env_name s.
Proof.
  induction s as [|c r IH]; [reflexivity|].
  cbn [lower env_name]. rewrite env_name_char_lower, IH. reflexivity.
Qed.

(** [X11]: two keys that differ only in the case of ASCII letters read
    the same environment variable. *)
Theorem envKey_case_insensitive (prefix a b : string) :
  lower a = lower b ->
  EnvironmentProvider_envKey prefix a = EnvironmentProvider_envKey prefix b.
Proof.
  intros H. unfold EnvironmentProvider_envKey.
  rewrite <- (env_name_lower a), <- (env_name_lower b), H. reflexivity.
Qed.

Lemma envKey_case_insensitive_witness :
  lower "git_token_Repo" = lower "GIT_TOKEN_repo" /\
  EnvironmentProvider_envKey "A3T_" "git_token_Repo"
  = EnvironmentProvider_envKey "A3T_" "GIT_TOKEN_repo".
Proof.
  split; [reflexivity|]. apply envKey_case_insensitive. reflexivity.
Defined.

(* ------------------------------------------------------------------ *)
(** ** [GitFsBackend] when the repository cannot be made ready *)

Lemma path_args_nonstring (a b : jsval) (rest : list jsval) :
  (forall p, a <> JStr p) \/ (forall p, b <> JStr p) -> path_args (a :: b :: rest) = None.
Proof.
  intros H. destruct a as [| | |n|s]; cbn [path_args]; try reflexivity.
  destruct H as [H|H]; [exfalso; exact (H s eq_refl)|].
  destruct b; cbn [path_args option_map]; try reflexivity.
  exfalso. exact (H _ eq_refl).
Qed.

Lemma getLocalRepoPath_nonstring (config : git_config) (context : jsobj) :
  (forall p, cachePath config <> JStr p) \/ (forall p, scope config <> JStr p) ->
  getLocalRepoPath config context = Throw (Error "The path argument must be of type string").
Proof.
  intros H. unfold getLocalRepoPath, path_join_js. cbv zeta.
  rewrite (path_args_nonstring _ _ _ H). reflexivity.
Qed.

(** [X13]: [ensureRepository()] fails, and both reads of [GitFsBackend]
    then answer [null] without reading a file, in two cases: the cache
    path or the scope is not a string (so [path.join] throws), or the
    repository is not fresh and its sync (mkdir, getAuthOptions, clone
    or fetch, checkout) throws anything, [undefined] included. *)
Theorem GitFsBackend_reads_null_when_unready {W} (gw : git_world (W := W)) (cwd : string)
    (config : git_config) (context : jsobj) (key : string) (w : W) :
  ((forall p, cachePath config <> JStr p) \/ (forall p, scope config <> JStr p) ->
   GitFsBackend_readAsset gw cwd config context key w = (Ret JNull, w) /\
   GitFsBackend_readBinaryAsset gw cwd config context key w = (Ret JNull, w)) /\
  (forall repoPath w1 w2 err,
   getLocalRepoPath config context = Ret repoPath ->
   repo_fresh gw repoPath w = (false, w1) ->
   repo_sync gw repoPath w1 = (Throw err, w2) ->
   GitFsBackend_readAsset gw cwd config context key w = (Ret JNull, w2) /\
   GitFsBackend_readBinaryAsset gw cwd config context key w = (Ret JNull, w2)).
Proof.
  split.
  - intros H. unfold GitFsBackend_readAsset, GitFsBackend_readBinaryAsset, ensureRepository.
    rewrite (getLocalRepoPath_nonstring config context H). split; reflexivity.
  - intros repoPath w1 w2 err G F S.
    unfold GitFsBackend_readAsset, GitFsBackend_readBinaryAsset, ensureRepository.
    rewrite G, F, S. destruct err; split; reflexivity.
Qed.

(** A repository that cannot be cloned: every sync rejects with [undefined]. *)
Definition broken_git_world : git_world (W := unit) :=
  {| repo_fresh := fun _ w => (false, w);
     repo_sync := fun _ w => (Throw ExnNullish, w);
     git_readFile := serve_all;
     git_readFileBinary := serve_all |}.

Lemma GitFsBackend_reads_null_when_unready_witness :
  GitFsBackend_readAsset broken_git_world "/srv"
    {| repoUrl := "https://example.com/org/assets.git"; cachePath := JUndefined;
       scope := JStr "user"; credentials := JObj [] |} [] "notes.txt" tt = (Ret JNull, tt) /\
  GitFsBackend_readBinaryAsset broken_git_world "/srv" alice_git_config [] "notes.txt" tt
  = (Ret JNull, tt).
Proof.
  split.
  - apply (proj1 (GitFsBackend_reads_null_when_unready broken_git_world "/srv"
                    {| repoUrl := "https://example.com/org/assets.git"; cachePath := JUndefined;
                       scope := JStr "user"; credentials := JObj [] |} [] "notes.txt" tt)).
    left. intros p. discriminate.
  - eapply (proj2 (GitFsBackend_reads_null_when_unready broken_git_world "/srv" alice_git_config []
                     "notes.txt" tt) _ tt tt ExnNullish); reflexivity.
Defined.

(* ------------------------------------------------------------------ *)
(** ** The repository directory name is stable *)

Lemma replace_disallowed_id (s : string) :
  all_chars repo_char s = true -> replace_disallowed s = s.
Proof.
  induction s as [|c r IH]; [reflexivity|]. cbn [all_chars replace_disallowed].
  intros H. apply andb_prop in H as [Hc Hr]. rewrite Hc, (IH Hr). reflexivity.
Qed.

Lemma collapse_dashes_id (b : bool) (s : string) :
  no_dash_run s = true -> (b = false \/ starts_dash s = false) -> collapse_dashes b s = s.
Proof.
  revert b. induction s as [|c r IH]; intros b H Hb; [reflexivity|].
  cbn [no_dash_run] in H. apply andb_prop in H as [H1 H2].
  cbn [collapse_dashes]. destruct (Ascii.eqb c "-") eqn:E.
  - destruct b.
    + destruct Hb as [Hb|Hb]; [discriminate Hb|]. cbn [starts_dash] in Hb. congruence.
    + apply Ascii.eqb_eq in E. subst c. rewrite (IH true H2); [reflexivity|].
      right. destruct (starts_dash r); [discriminate H1|reflexivity].
  - rewrite (IH false H2); [reflexivity|]. left; reflexivity.
Qed.

Lemma drop_trailing_dash_id (s : string) :
  ends_dash s = false -> drop_trailing_dash s = s.
Proof.
  induction s as [|c r IH]; [reflexivity|]. intros H.
  destruct r as [|d r'].
  - cbn [ends_dash] in H. cbn [drop_trailing_dash]. rewrite H. reflexivity.
  - change (drop_trailing_dash (String c (String d r')))
      with (String c (drop_trailing_dash (String d r'))).
    change (ends_dash (String c (String d r'))) with (ends_dash (String d r')) in H.
    rewrite (IH H). reflexivity.
Qed.

(** [X14]: sanitizing is idempotent: the directory name [getLocalRepoPath]
    builds from a repository URL is left unchanged when sanitized again. *)
Theorem sanitize_repo_name_idempotent (url : string) :
  sanitize_repo_name (sanitize_repo_name url) = sanitize_repo_name url.
Proof.
  destruct (sanitize_repo_name_shape url) as [Hc [Hr [Hs He]]].
  set (n := sanitize_repo_name url) in *.
  unfold sanitize_repo_name at 1, trim_dashes.
  rewrite (replace_disallowed_id n Hc), (collapse_dashes_id false n Hr (or_introl eq_refl)).
  destruct n as [|c r]; [reflexivity|].
  cbn [starts_dash] in Hs. rewrite Hs. exact (drop_trailing_dash_id _ He).
Qed.

(* ------------------------------------------------------------------ *)
(** ** [NodeFsBackend] reads the keys inside its root *)

Lemma seg_tail_app (l1 l2 : list string) :
  seg_tail (l1 ++ l2)%list = seg_tail l1 ++ seg_tail l2.
Proof.
  induction l1 as [|x l1 IH]; [reflexivity|]. cbn [app seg_tail].
  rewrite IH, sapp_cons, sapp_assoc. reflexivity.
Qed.

Lemma join_segs_app (l1 l2 : list string) :
  l1 <> [] -> l2 <> [] -> join_segs (l1 ++ l2)%list = join_segs l1 ++ String "/" (join_segs l2).
Proof.
  intros H1 H2. destruct l1 as [|x l1]; [congruence|]. destruct l2 as [|y l2]; [congruence|].
  cbn [app join_segs]. rewrite seg_tail_app. cbn [seg_tail]. rewrite sapp_assoc. reflexivity.
Qed.

Lemma split_join_segs (L : list string) :
  L <> [] -> Forall (fun x => no_slash x = true) L -> split_slash (join_segs L) = L.
Proof.
  induction L as [|x L IH]; intros Hne HF; [congruence|].
  inversion HF as [|? ? Hx HL]; subst.
  destruct L as [|y L'].
  - cbn [join_segs seg_tail]. rewrite sapp_nil_r. apply split_slash_single, Hx.
  - change (join_segs (x :: y :: L')) with (x ++ String "/" (join_segs (y :: L'))).
    rewrite split_slash_app, (split_slash_single x Hx), IH; [reflexivity|discriminate|exact HL].
Qed.

Lemma normalize_segs_normals (a : bool) (st L : list string) :
  Forall (fun x => normal_seg x = true) L -> normalize_segs a st L = (rev L ++ st)%list.
Proof.
  revert st. induction L as [|x L IH]; intros st HF; [reflexivity|].
  inversion HF as [|? ? Hx HL]; subst.
  change (x :: L) with ([x] ++ L)%list.
  rewrite normalize_segs_app, (normalize_segs_normal a st x Hx), (IH _ HL).
  cbn [rev app]. rewrite <- app_assoc. reflexivity.
Qed.

Lemma normals_no_slash (L : list string) :
  Forall (fun x => normal_seg x = true) L -> Forall (fun x => no_slash x = true) L.
Proof. intros H. eapply Forall_impl; [exact H|]. exact normal_seg_no_slash. Qed.

Lemma join_normals_shape (L : list string) :
  L <> [] -> Forall (fun x => normal_seg x = true) L ->
  String.eqb (join_segs L) EmptyString = false /\ is_abs (join_segs L) = false.
Proof.
  intros Hne HF. destruct L as [|x L]; [congruence|].
  inversion HF as [|? ? Hx _]; subst. cbn [join_segs].
  destruct x as [|c x']; [exfalso; exact (normal_seg_nonempty _ Hx eq_refl)|].
  pose proof (normal_seg_no_slash _ Hx) as Hn. cbn [no_slash] in Hn.
  rewrite sapp_cons. split; [reflexivity|]. cbn [is_abs].
  destruct (Ascii.eqb c "/"); [discriminate Hn|reflexivity].
Qed.

Lemma ends_with_slash_normals (L : list string) :
  L <> [] -> Forall (fun x => normal_seg x = true) L -> ends_with_slash (join_segs L) = false.
Proof.
  induction L as [|x L IH]; intros Hne HF; [congruence|].
  inversion HF as [|? ? Hx HL]; subst.
  destruct L as [|y L'].
  - cbn [join_segs seg_tail]. rewrite sapp_nil_r.
    exact (ends_with_slash_no_slash _ (normal_seg_no_slash _ Hx)).
  - change (join_segs (x :: y :: L')) with (x ++ ("/" ++ join_segs (y :: L'))).
    assert (Hj : join_segs (y :: L') <> EmptyString).
    { destruct (join_normals_shape (y :: L') ltac:(discriminate) HL) as [E _].
      intros Z. rewrite Z in E. discriminate E. }
    rewrite ends_with_slash_app by discriminate.
    rewrite ends_with_slash_app by exact Hj. apply IH; [discriminate|exact HL].
Qed.

Lemma path_join_normals (R K : list string) :
  R <> [] -> Forall (fun x => normal_seg x = true) R ->
  K <> [] -> Forall (fun x => normal_seg x = true) K ->
  path_join [join_segs R; join_segs K] = join_segs (R ++ K)%list.
Proof.
  intros HR FR HK FK.
  destruct (join_normals_shape R HR FR) as [ER _].
  destruct (join_normals_shape K HK FK) as [EK _].
  assert (HRK : (R ++ K)%list <> []) by (destruct R; [congruence|discriminate]).
  assert (FRK : Forall (fun x => normal_seg x = true) (R ++ K)%list) by (apply Forall_app; auto).
  destruct (join_normals_shape _ HRK FRK) as [E A].
  unfold path_join. cbn [List.filter]. rewrite ER, EK. cbn [negb join_segs seg_tail].
  rewrite sapp_nil_r, <- (join_segs_app R K HR HK), E.
  unfold path_normalize. rewrite E, A, (ends_with_slash_normals _ HRK FRK).
  rewrite (split_join_segs _ HRK (normals_no_slash _ FRK)).
  rewrite (normalize_segs_normals _ _ _ FRK), app_nil_r, rev_involutive, E. reflexivity.
Qed.

Lemma resolve_segs_relative (cwd : string) (L : list string) :
  L <> [] -> Forall (fun x => normal_seg x = true) L ->
  resolve_segs cwd (join_segs L) = (rev (normalize_segs false [] (split_slash cwd)) ++ L)%list.
Proof.
  intros Hne HF. destruct (join_normals_shape L Hne HF) as [E A].
  unfold resolve_segs. rewrite E, A.
  change (cwd ++ "/" ++ join_segs L) with (cwd ++ String "/" (join_segs L)).
  rewrite split_slash_app, normalize_segs_app, (split_join_segs _ Hne (normals_no_slash _ HF)).
  rewrite (normalize_segs_normals _ _ _ HF), rev_app_distr, rev_involutive. reflexivity.
Qed.

Lemma prefix_app_l (a b c : string) :
  String.prefix b c = true -> String.prefix (a ++ b) (a ++ c) = true.
Proof.
  intros H. induction a as [|x a IH]; [exact H|].
  rewrite !sapp_cons, prefix_cons. destruct (ascii_dec x x); [exact IH|congruence].
Qed.

Lemma guard_accepts_extension (X Y : string) :
  traversal_rejected ("/" ++ X ++ String "/" Y) ("/" ++ X) = false.
Proof.
  unfold traversal_rejected, startsWith, sep.
  rewrite sapp_assoc, prefix_app_l; [reflexivity|].
  apply prefix_app_l. rewrite prefix_cons. destruct (ascii_dec "/" "/") as [_|n]; [destruct Y; reflexivity|congruence].
Qed.

(** [X15]: for a root made of ordinary path segments (like the default
    ["assets"]) and a key made of ordinary segments (no [""], ["."] or
    [".."]), the traversal guard lets both reads of [NodeFsBackend]
    through: they read the file [rootPath + "/" + key]. *)
Theorem NodeFsBackend_reads_inside_root {W} (cwd : string) (R K : list string)
    (readFile readFileBinary : string -> W -> outcome jsval * W) (w : W) :
  R <> [] -> Forall (fun x => normal_seg x = true) R ->
  K <> [] -> Forall (fun x => normal_seg x = true) K ->
  let rootPath := join_segs R in
  let key := join_segs K in
  NodeFsBackend_readAsset cwd rootPath readFile key w
  = (let (r, w1) := readFile (rootPath ++ "/" ++ key) w in
     match r with Ret content => (Ret content, w1) | Throw error => (read_catch error, w1) end) /\
  NodeFsBackend_readBinaryAsset cwd rootPath readFileBinary key w
  = (let (r, w1) := readFileBinary (rootPath ++ "/" ++ key) w in
     match r with Ret buffer => (Ret buffer, w1) | Throw error => (read_catch error, w1) end).
Proof.
  intros HR FR HK FK. cbv zeta.
  assert (HRK : (R ++ K)%list <> []) by (destruct R; [congruence|discriminate]).
  assert (FRK : Forall (fun x => normal_seg x = true) (R ++ K)%list) by (apply Forall_app; auto).
  assert (J : join_segs R ++ "/" ++ join_segs K = join_segs (R ++ K)%list)
    by (rewrite (join_segs_app R K HR HK); reflexivity).
  assert (G : traversal_rejected (path_resolve cwd (path_join [join_segs R; join_segs K]))
                (path_resolve cwd (join_segs R)) = false).
  { rewrite (path_join_normals R K HR FR HK FK). unfold path_resolve.
    rewrite (resolve_segs_relative cwd _ HRK FRK), (resolve_segs_relative cwd _ HR FR).
    rewrite app_assoc, join_segs_app; [apply guard_accepts_extension| |exact HK].
    destruct R; [congruence|]. destruct (rev _); discriminate. }
  unfold NodeFsBackend_readAsset, NodeFsBackend_readBinaryAsset. rewrite G.
  rewrite (path_join_normals R K HR FR HK FK), J. auto.
Qed.

Lemma NodeFsBackend_reads_inside_root_witness :
  NodeFsBackend_readAsset (W := unit) "/srv/app" "assets" serve_all "en/greeting.txt" tt
  = (Ret (JStr "root:x:0:0"), tt).
Proof.
  destruct (NodeFsBackend_reads_inside_root "/srv/app" ["assets"] ["en"; "greeting.txt"]
              serve_all serve_all tt) as [H _];
    [discriminate|repeat constructor|discriminate|repeat constructor|].
  exact H.
Defined.

(* ------------------------------------------------------------------ *)
(** ** [readFromFilesystem] over the shipped content backends *)

Lemma read_catch_throw (e e' : exn) : read_catch e = Throw e' -> e' = TypeError.
Proof. unfold read_catch, read_prop. destruct e; [intros [= <-]; reflexivity|discriminate]. Qed.

Lemma NodeFsBackend_throw {W} (cwd rootPath : string)
    (readFile : string -> W -> outcome jsval * W) (key : string) (w w' : W) (e : exn) :
  (NodeFsBackend_readAsset cwd rootPath readFile key w = (Throw e, w') \/
   NodeFsBackend_readBinaryAsset cwd rootPath readFile key w = (Throw e, w')) ->
  e = TypeError.
Proof.
  unfold NodeFsBackend_readAsset, NodeFsBackend_readBinaryAsset.
  destruct (traversal_rejected _ _).
  - intros [H|H]; injection H as H _; exact (read_catch_throw _ _ H).
  - destruct (readFile _ w) as [[c|err] w1];
      intros [H|H]; try discriminate H; injection H as H _; exact (read_catch_throw _ _ H).
Qed.

Lemma GitFsBackend_throw {W} (gw : git_world (W := W)) (cwd : string) (config : git_config)
    (context : jsobj) (key : string) (w w' : W) (e : exn) :
  (GitFsBackend_readAsset gw cwd config context key w = (Throw e, w') \/
   GitFsBackend_readBinaryAsset gw cwd config context key w = (Throw e, w')) ->
  e = TypeError.
Proof.
  unfold GitFsBackend_readAsset, GitFsBackend_readBinaryAsset.
  destruct (ensureRepository gw config context w) as [[repoPath|err] w0].
  - destruct (traversal_rejected _ _).
    + intros [H|H]; injection H as H _; exact (read_catch_throw _ _ H).
    + destruct (git_readFile gw _ w0) as [[c|err] w1];
        destruct (git_readFileBinary gw _ w0) as [[c'|err'] w1'];
        intros [H|H]; try discriminate H; injection H as H _; exact (read_catch_throw _ _ H).
  - intros [H|H]; injection H as H _; exact (read_catch_throw _ _ H).
Qed.

Lemma readFromFilesystem_TypeError {W} (fsb : fs_backend W) (key : string) (binary : bool) (w : W) :
  (forall w1 w' e, (readAsset fsb key w1 = (Throw e, w') \/
                    readBinaryAsset fsb key w1 = (Throw e, w')) -> e = TypeError) ->
  exists v w', readFromFilesystem fsb key binary w = (Ret v, w').
Proof.
  intros Hb. unfold readFromFilesystem.
  destruct binary.
  - destruct (readBinaryAsset fsb key w) as [[v|e] w1] eqn:E; [eauto|].
    rewrite (Hb w w1 e (or_intror E)). simpl. eauto.
  - destruct (readAsset fsb key w) as [[v|e] w1] eqn:E; [eauto|].
    rewrite (Hb w w1 e (or_introl E)). simpl. eauto.
Qed.

(** [X16]: with [NodeFsBackend] or [GitFsBackend] in force,
    [readFromFilesystem] never throws, whatever [fs.readFile] and the
    repository do (even rejecting with [undefined], which the backends'
    [catch] turns into a TypeError that [readFromFilesystem] catches). *)
Theorem readFromFilesystem_shipped_backends_never_throw {W} :
  (forall (cwd rootPath : string) (readFile readFileBinary : string -> W -> outcome jsval * W)
          (key : string) (binary : bool) (w : W),
     exists v w', readFromFilesystem (NodeFsBackend cwd rootPath readFile readFileBinary)
                    key binary w = (Ret v, w')) /\
  (forall (gw : git_world (W := W)) (cwd : string) (config : git_config) (context : jsobj)
          (key : string) (binary : bool) (w : W),
     exists v w', readFromFilesystem (GitFsBackend gw cwd config context) key binary w
                  = (Ret v, w')).
Proof.
  split.
  - intros cwd rootPath readFile readFileBinary key binary w.
    apply readFromFilesystem_TypeError. cbn [NodeFsBackend readAsset readBinaryAsset].
    intros w1 w' e [H|H].
    + exact (NodeFsBackend_throw cwd rootPath readFile key w1 w' e (or_introl H)).
    + exact (NodeFsBackend_throw cwd rootPath readFileBinary key w1 w' e (or_intror H)).
  - intros gw cwd config context key binary w.
    apply readFromFilesystem_TypeError. cbn [GitFsBackend readAsset readBinaryAsset].
    intros w1 w' e H. exact (GitFsBackend_throw gw cwd config context key w1 w' e H).
Qed.

(* ------------------------------------------------------------------ *)
(** ** The shape of the credentials *)

Lemma in_keys_js_set (o : jsobj) (k k' : string) (v : jsval) :
  In k' (map fst (js_set o k v)) -> k' = k \/ In k' (map fst o).
Proof.
  induction o as [|[g u] o IH]; cbn [js_set map fst In].
  - intros [H|[]]. left. symmetry. exact H.
  - destruct (String.eqb g k) eqn:E.
    + apply String.eqb_eq in E. subst g. cbn [map fst In]. tauto.
    + cbn [map fst In]. intros [H|H]; [right; left; exact H|].
      destruct (IH H); [left|right; right]; assumption.
Qed.

Lemma js_set_nodup (o : jsobj) (k : string) (v : jsval) :
  NoDup (map fst o) -> NoDup (map fst (js_set o k v)).
Proof.
  induction o as [|[g u] o IH]; cbn [js_set map fst].
  - intros _. constructor; [apply not_elem_of_nil|constructor].
  - intros H. inversion H as [|? ? Hg Ho]; subst.
    destruct (String.eqb g k) eqn:E.
    + apply String.eqb_eq in E. subst g. cbn [map fst]. constructor; assumption.
    + cbn [map fst]. constructor; [|exact (IH Ho)].
      intros Hin. apply list_elem_of_In in Hin.
      destruct (in_keys_js_set o k g v Hin) as [->|Hin'].
      * rewrite String.eqb_refl in E. discriminate E.
      * apply Hg. apply list_elem_of_In. exact Hin'.
Qed.

Lemma js_set_forall (P : string * jsval -> Prop) (o : jsobj) (k : string) (v : jsval) :
  Forall P o -> P (k, v) -> Forall P (js_set o k v).
Proof.
  induction o as [|[g u] o IH]; cbn [js_set]; intros H Hkv.
  - constructor; [exact Hkv|constructor].
  - inversion H as [|? ? Hg Ho]; subst.
    destruct (String.eqb g k); constructor; auto.
Qed.

(** The invariant of the [auth] object [getAuthOptions] builds. *)
Definition auth_ok (a : jsobj) : Prop :=
  NoDup (map fst a) /\
  Forall (fun kv => In (fst kv) ["username"; "password"; "token"] /\ truthy (snd kv) = true) a.

Lemma auth_ok_step (a : jsobj) (k : string) (v : jsval) :
  auth_ok a -> In k ["username"; "password"; "token"] ->
  auth_ok (if truthy v then js_set a k v else a).
Proof.
  intros [Hn Hf] Hk. destruct (truthy v) eqn:T; [|split; assumption].
  split; [apply js_set_nodup, Hn|]. apply js_set_forall; [exact Hf|]. split; assumption.
Qed.

Lemma auth_ok_first (k : string) (v : jsval) :
  In k ["username"; "password"; "token"] -> auth_ok (if truthy v then [(k, v)] else []).
Proof.
  intros Hk. apply (auth_ok_step [] k v); [split; constructor|exact Hk].
Qed.

(** [X17]: the options [getAuthOptions] returns hold only the fields
    [username], [password] and [token], each at most once, and never a
    falsy value (no empty string, [null] or [undefined]). *)
Theorem getAuthOptions_shape (config : git_config) (getSecret : string -> jsval)
    (auth : jsobj) :
  getAuthOptions config getSecret = Ret auth ->
  NoDup (map fst auth) /\
  Forall (fun kv => In (fst kv) ["username"; "password"; "token"] /\ truthy (snd kv) = true)
    auth.
Proof.
  intros H. unfold getAuthOptions in H.
  destruct (credentials config) as [o|v]; cbn [read_field] in H;
  [|destruct (nullish v); [discriminate H|]]; cbv beta iota zeta in H;
  injection H as <-;
  repeat (apply auth_ok_step; [|cbn [In]; tauto]);
  first [apply auth_ok_first; cbn [In]; tauto | split; constructor].
Qed.

Lemma getAuthOptions_shape_witness :
  getAuthOptions alice_git_config (fun _ => JStr "secret") =
    Ret [("username", JStr "secret"); ("password", JStr "secret"); ("token", JStr "secret")] /\
  NoDup (map fst [("username", JStr "secret"); ("password", JStr "secret"); ("token", JStr "secret")]) /\
  Forall (fun kv => In (fst kv) ["username"; "password"; "token"] /\ truthy (snd kv) = true)
    [("username", JStr "secret"); ("password", JStr "secret"); ("token", JStr "secret")].
Proof.
  split; [reflexivity|]. apply (getAuthOptions_shape alice_git_config (fun _ => JStr "secret")).
  reflexivity.
Defined.

Example getCacheKey_ex :
  getCacheKey [("language", JNull); ("workspace", JNull); ("system", JNull);
               ("buildHash", JStr "default"); ("nonce", JNum 0)] "k"
              [("language", JStr "en")]
  = "{" ++ quote "key" ++ ":" ++ quote "k" ++ "," ++ quote "language" ++ ":"
    ++ quote "en" ++ "," ++ quote "workspace" ++ ":null," ++ quote "system"
    ++ ":null," ++ quote "buildHash" ++ ":" ++ quote "default" ++ ","
    ++ quote "nonce" ++ ":0}".
Proof. reflexivity. Qed.

Example parse_object_ex :
  parse_object 6 (getCacheKey [("nonce", JNum (-12))] "a\b" [("language", JStr "e")])
  = Some ([("key", JStr "a\b"); ("language", JStr "e"); ("nonce", JNum (-12))],
          EmptyString).
Proof. reflexivity. Qed.
